(** * prosemirror-utils: descendant search, ancestor search, view projection
      and transaction helpers.

    Shallow embedding of [src/node.ts], [src/selection.ts] and the transform
    helpers ([replaceNodeAtPos], [removeNodeAtPos], [removeSelectedNode],
    [safeInsert], ...), followed by the theorems about them. *)

From stdpp Require Import gmap strings list sorting.
From Stdlib Require Import ZArith Lia.

Local Open Scope Z_scope.

#[local] Set Warnings "-register-all".

(* ===================================================================== *)
(** * Part I.  Data model                                                 *)
(* ===================================================================== *)

(** ** Document tree *)

(** A [NodeType] object of the schema; node types are compared by identity
    ([child.type === nodeType]), which the name stands for. *)
Definition NodeType := string.

(** A document node.  Text nodes carry their text, leaf nodes (an image, a
    hard break) have no content, every other node owns a fragment of
    children. *)
Inductive ProsemirrorNode : Type :=
| TextNode (type : NodeType) (text : string)
| LeafNode (type : NodeType)
| BranchNode (type : NodeType) (content : list ProsemirrorNode).

Definition type (n : ProsemirrorNode) : NodeType :=
  match n with
  | TextNode t _ | LeafNode t | BranchNode t _ => t
  end.

Definition isText (n : ProsemirrorNode) : bool :=
  match n with TextNode _ _ => true | _ => false end.

(** [node.content] as the list of children (empty for text and leaf nodes). *)
Definition content (n : ProsemirrorNode) : list ProsemirrorNode :=
  match n with BranchNode _ cs => cs | _ => [] end.

(** [node.nodeSize]: the length of the text for a text node, 1 for a leaf,
    and the content size plus the opening and the closing token otherwise. *)
Fixpoint nodeSize (n : ProsemirrorNode) : Z :=
  match n with
  | TextNode _ s => Z.of_nat (String.length s)
  | LeafNode _ => 1
  | BranchNode _ cs =>
      2 + (fix size (l : list ProsemirrorNode) : Z :=
             match l with
             | [] => 0
             | c :: r => nodeSize c + size r
             end) cs
  end.

(** [fragment.size]. *)
Fixpoint fragmentSize (l : list ProsemirrorNode) : Z :=
  match l with
  | [] => 0
  | c :: r => nodeSize c + fragmentSize r
  end.

(** [node.content.size]. *)
Definition contentSize (n : ProsemirrorNode) : Z := fragmentSize (content n).

(** ** Descendant enumeration *)

Section Descendants.
Context {St : Type}.

(** The callback handed to [descendants]: it sees the child and its
    position, may update the state it closes over, and answers whether the
    walk may enter the child (it answers [false] exactly when the
    JavaScript callback returns [false]). *)
Variable f : ProsemirrorNode → Z → St → bool * St.

(** Modelled from the spec: the document tree's descendant-enumeration
    primitive ([node.descendants] of the editing framework, a collaborator
    that is not part of this repository): it yields [(child, absolutePos)]
    pairs in document order with per-child recursion control.  A child at
    offset [pos] of a fragment starting at [nodeStart] is reported at
    [nodeStart + pos]; its own content starts one token further. *)
Fixpoint nodesBetween (n : ProsemirrorNode) (nodeStart : Z) (st : St) : St :=
  match n with
  | BranchNode _ cs =>
      (fix loop (l : list ProsemirrorNode) (pos : Z) (st : St) : St :=
         match l with
         | [] => st
         | child :: rest =>
             let '(enter, st1) := f child (nodeStart + pos) st in
             let st2 :=
               if enter && negb (contentSize child =? 0)
               then nodesBetween child (nodeStart + pos + 1) st1
               else st1 in
             loop rest (pos + nodeSize child) st2
         end) cs 0 st
  | _ => st
  end.

(** The same loop over a fragment, as a function of its own. *)
Fixpoint fragmentNodesBetween (l : list ProsemirrorNode) (nodeStart pos : Z)
    (st : St) : St :=
  match l with
  | [] => st
  | child :: rest =>
      let '(enter, st1) := f child (nodeStart + pos) st in
      let st2 :=
        if enter && negb (contentSize child =? 0)
        then nodesBetween child (nodeStart + pos + 1) st1
        else st1 in
      fragmentNodesBetween rest nodeStart (pos + nodeSize child) st2
  end.

Definition descendants (n : ProsemirrorNode) (st : St) : St :=
  nodesBetween n 0 st.
End Descendants.

(** ** Values of [node.ts] *)

(** [NodeWithPos = {pos: number, node: ProsemirrorNode}]. *)
Record NodeWithPos := mkNodeWithPos { nwp_node : ProsemirrorNode; nwp_pos : Z }.

Definition Predicate := ProsemirrorNode → bool.

(** An optional boolean argument ([descend?: boolean]): left out, passed as
    [null], or given. *)
Inductive OptBool := undefined | null | given (b : bool).

(** JavaScript truthiness of such an argument. *)
Definition truthy (d : OptBool) : bool :=
  match d with given b => b | _ => false end.

(** The two [Error]s thrown by the descendant searches. *)
Inductive InvalidArgument :=
| InvalidNodeParameter        (* new Error('Invalid "node" parameter') *)
| InvalidPredicateParameter.  (* new Error('Invalid "predicate" parameter') *)

(** A call either throws or returns. *)
Inductive Completion (A : Type) :=
| Throw (e : InvalidArgument)
| Return (a : A).
Arguments Throw {A} e.
Arguments Return {A} a.

(* ===================================================================== *)
(** * Part II.  node.ts                                                   *)
(* ===================================================================== *)

(** The arrow function of [flatten]: push the pair, and return [false] when
    [descend] is falsy. *)
Definition flatten_callback (descend : OptBool)
    (child : ProsemirrorNode) (pos : Z) (result : list NodeWithPos)
    : bool * list NodeWithPos :=
  let result := result ++ [mkNodeWithPos child pos] in
  if negb (truthy descend) then (false, result) else (true, result).

Definition flatten (node : option ProsemirrorNode) (descend : OptBool)
    : Completion (list NodeWithPos) :=
  match node with
  | None => Throw InvalidNodeParameter
  | Some node => Return (descendants (flatten_callback descend) node [])
  end.

Definition findChildren (node : option ProsemirrorNode)
    (predicate : option Predicate) (descend : OptBool)
    : Completion (list NodeWithPos) :=
  match node with
  | None => Throw InvalidNodeParameter
  | Some _ =>
      match predicate with
      | None => Throw InvalidPredicateParameter
      | Some predicate =>
          match flatten node descend with
          | Throw e => Throw e
          | Return l => Return (filter (λ child, predicate (nwp_node child) = true) l)
          end
      end
  end.

Definition findTextNodes (node : option ProsemirrorNode) (descend : OptBool) :=
  findChildren node (Some isText) descend.

Definition findChildrenByType (node : option ProsemirrorNode)
    (nodeType : NodeType) (descend : OptBool) :=
  findChildren node (Some (λ child, bool_decide (type child = nodeType))) descend.

Definition contains (node : option ProsemirrorNode) (nodeType : NodeType)
    : Completion bool :=
  match findChildrenByType node nodeType null with
  | Throw e => Throw e
  | Return l => Return (negb (length l =? 0)%nat)
  end.

(** ** Sample documents *)

Definition paragraph_ab : ProsemirrorNode :=
  BranchNode "paragraph" [TextNode "text" "ab"].

(** [doc(paragraph("ab"))]. *)
Definition doc_p : ProsemirrorNode := BranchNode "doc" [paragraph_ab].

Definition cell_x : ProsemirrorNode :=
  BranchNode "table_cell" [BranchNode "paragraph" [TextNode "text" "x"]].

(** [table(table_row(table_cell(paragraph("x"))))]. *)
Definition table_1x1 : ProsemirrorNode :=
  BranchNode "table" [BranchNode "table_row" [cell_x]].

(* ===================================================================== *)
(** * Part III.  selection.ts                                             *)
(* ===================================================================== *)

(** ** Resolved positions and selections *)

(** A resolved position, as the depth-indexed view the helpers consume:
    [$pos.pos], [$pos.depth] and, for a depth [d], [$pos.node(d)],
    [$pos.index(d)], [$pos.indexAfter(d)], [$pos.start(d)], [$pos.before(d)]
    and [$pos.after(d)]. *)
Record ResolvedPos := mkResolvedPos {
  rp_pos : Z;
  rp_depth : nat;
  rp_node : nat → ProsemirrorNode;
  rp_index : nat → nat;
  rp_indexAfter : nat → nat;
  rp_start : nat → Z;
  rp_before : nat → Z;
  rp_after : nat → Z
}.

(** [$pos.parent], that is [$pos.node($pos.depth)]. *)
Definition rp_parent (rpos : ResolvedPos) : ProsemirrorNode :=
  rp_node rpos (rp_depth rpos).


(** A selection: a range between two resolved positions, or a node
    selection, which alone has the [node] field. *)
Inductive Selection :=
| TextSelection (from to : ResolvedPos)
| NodeSelection (node : ProsemirrorNode) (from to : ResolvedPos).

Definition sel_from (s : Selection) : ResolvedPos :=
  match s with TextSelection f _ | NodeSelection _ f _ => f end.



(** [ContentNodeWithPos = {pos, start, depth, node}]. *)
Record ContentNodeWithPos := mkContentNodeWithPos {
  cn_pos : Z;
  cn_start : Z;
  cn_depth : nat;
  cn_node : ProsemirrorNode
}.

(** ** Ancestor search *)

(** The [for (let i = ...; i > 0; i--)] loop of [findParentNodeClosestToPos],
    entered with counter [i]. *)
Fixpoint findParentNodeClosestToPos_loop (rpos : ResolvedPos)
    (predicate : Predicate) (i : nat) : option ContentNodeWithPos :=
  match i with
  | O => None
  | S j =>
      let node := rp_node rpos i in
      if predicate node
      then Some {| cn_pos := if (0 <? i)%nat then rp_before rpos i else 0;
                   cn_start := rp_start rpos i;
                   cn_depth := i;
                   cn_node := node |}
      else findParentNodeClosestToPos_loop rpos predicate j
  end.

Definition findParentNodeClosestToPos (rpos : ResolvedPos)
    (predicate : Predicate) : option ContentNodeWithPos :=
  findParentNodeClosestToPos_loop rpos predicate (rp_depth rpos).

Definition findParentNode (predicate : Predicate) (selection : Selection)
    : option ContentNodeWithPos :=
  findParentNodeClosestToPos (sel_from selection) predicate.

Definition hasParentNode (predicate : Predicate) (selection : Selection) : bool :=
  match findParentNode predicate selection with Some _ => true | None => false end.

(** A [NodeType | NodeType[]] argument. *)
Inductive NodeTypes :=
| OneType (t : NodeType)
| TypeArray (ts : list NodeType).

(** Modelled from the spec: [equalNodeType] of [./helpers], which is not
    among the sources: the node's type is a member of the given type or
    type set. *)
Definition equalNodeType (nodeType : NodeTypes) (node : ProsemirrorNode) : bool :=
  match nodeType with
  | OneType t => bool_decide (type node = t)
  | TypeArray ts => bool_decide (type node ∈ ts)
  end.

Definition findParentNodeOfType (nodeType : NodeTypes) (selection : Selection)
    : option ContentNodeWithPos :=
  findParentNode (λ node, equalNodeType nodeType node) selection.

Definition findParentNodeOfTypeClosestToPos (rpos : ResolvedPos)
    (nodeType : NodeTypes) : option ContentNodeWithPos :=
  findParentNodeClosestToPos rpos (λ node, equalNodeType nodeType node).

Definition hasParentNodeOfType (nodeType : NodeTypes) (selection : Selection) : bool :=
  hasParentNode (λ node, equalNodeType nodeType node) selection.

(** ** The rendered view *)

(** A node of the rendered tree.  Only elements have child nodes. *)
Inductive DomNode : Type :=
| DomText (data : string)
| DomElement (tagName : string) (childNodes : list DomNode).

(** One level of the way from a node up to the root of its tree: the tag of
    the parent and the siblings on both sides. *)
Record DomFrame := mkDomFrame {
  df_tag : string;
  df_left : list DomNode;
  df_right : list DomNode
}.

(** A reference to a node inside a rendered tree: the node together with its
    place in the tree.  Two references are the same node exactly when they
    are equal. *)
Record DomRef := mkDomRef {
  dr_node : DomNode;
  dr_up : list DomFrame
}.

Definition ELEMENT_NODE : Z := 1.
Definition TEXT_NODE : Z := 3.

(** [ref.nodeType]. *)
Definition nodeType (r : DomRef) : Z :=
  match dr_node r with
  | DomText _ => TEXT_NODE
  | DomElement _ _ => ELEMENT_NODE
  end.

(** [ref.parentNode]: [null] at the root of a tree. *)
Definition parentNode (r : DomRef) : option DomRef :=
  match dr_up r with
  | [] => None
  | fr :: up =>
      Some {| dr_node := DomElement (df_tag fr) (df_left fr ++ dr_node r :: df_right fr);
              dr_up := up |}
  end.

(** [ref.childNodes[i]]: [undefined] when out of range; a text node has an
    empty list of child nodes. *)
Definition childNode (r : DomRef) (i : nat) : option DomRef :=
  match dr_node r with
  | DomText _ => None
  | DomElement tag cs =>
      match cs !! i with
      | None => None
      | Some c =>
          Some {| dr_node := c;
                  dr_up := {| df_tag := tag; df_left := take i cs;
                              df_right := drop (S i) cs |} :: dr_up r |}
      end
  end.

(** What a [DomAtPos] answers: [{node, offset}]. *)
Record DomPoint := mkDomPoint { dom_node : DomRef; dom_offset : nat }.

Definition DomAtPos := Z → DomPoint.

Definition findDomRefAtPos (position : Z) (domAtPos : DomAtPos) : option DomRef :=
  let dom := domAtPos position in
  let node := childNode (dom_node dom) (dom_offset dom) in
  if nodeType (dom_node dom) =? TEXT_NODE then parentNode (dom_node dom)
  else
    match node with
    | None => Some (dom_node dom)
    | Some node =>
        if nodeType node =? TEXT_NODE then Some (dom_node dom) else Some node
    end.

Definition findParentDomRef (predicate : Predicate) (domAtPos : DomAtPos)
    (selection : Selection) : option DomRef :=
  match findParentNode predicate selection with
  | Some parent => findDomRefAtPos (cn_pos parent) domAtPos
  | None => None
  end.

(* ===================================================================== *)
(** * Part IV.  Transactions and the transform helpers                    *)
(* ===================================================================== *)

(** ** Transactions as objects in a store *)

(** The edits a transaction records. *)
Inductive Step :=
| DeleteStep (from to : Z)
| InsertStep (pos : Z) (node : ProsemirrorNode)
| ReplaceWithStep (from to : Z) (node : ProsemirrorNode).

(** The own fields of a transaction object the helpers touch: the current
    document, the current selection, the recorded steps and the time stamp. *)
Record Transaction := mkTransaction {
  doc : ProsemirrorNode;
  curSelection : Selection;
  steps : list Step;
  time : Z
}.

(** The store: transaction objects by reference, and the clock read by
    [Date.now()]. *)
Record World := mkWorld {
  heap : gmap nat Transaction;
  now : Z
}.

(** A computation over the store.  [None] is a dereference of a reference
    that names no object, which no JavaScript run can perform. *)
Definition Eff (A : Type) : Type := World → option (A * World).

#[global] Instance Eff_ret : MRet Eff := λ A a w, Some (a, w).

#[global] Instance Eff_bind : MBind Eff := λ A B k m w,
  match m w with
  | Some (a, w') => k a w'
  | None => None
  end.

(** The fields of a transaction once a step is recorded, given what steps do
    to documents.  The field [curSelection], which the helpers read, is the
    selection as it was stored: recording a step does not move it. *)
Definition recorded (apply : ProsemirrorNode → Step → ProsemirrorNode)
    (t : Transaction) (s : Step) : Transaction :=
  {| doc := apply (doc t) s;
     curSelection := curSelection t;
     steps := steps t ++ [s];
     time := time t |}.

(** The collaborators of the editing framework the helpers call into:
    [doc.resolve(pos)]; [container.canReplaceWith(from, to, type)], the
    schema's capability check, asked of a container node; the effect of a
    step on a document; and the edit primitive behind [tr.delete],
    [tr.insert] and [tr.replaceWith].  Of the edit primitive the helpers
    only need that it returns a reference to a transaction object with the
    step recorded and that no object disappears; whether the object edited
    is [tr] itself, as in the framework, or a copy, is left open.
    [resolve] says what an offset of the document resolves to; that the
    framework refuses the other offsets, and depth 0 for [before] and
    [after], is said by [doc_resolve], [pos_before] and [pos_after]
    below. *)
Class Editor := {
  resolve : ProsemirrorNode → Z → ResolvedPos;
  canReplaceWith : ProsemirrorNode → nat → nat → NodeType → bool;
  applyStep : ProsemirrorNode → Step → ProsemirrorNode;
  tr_step : nat → Step → Eff nat;
  tr_step_records : ∀ (w : World) (tr : nat) (t : Transaction) (s : Step),
    heap w !! tr = Some t →
    ∃ r w', tr_step tr s w = Some (r, w')
            ∧ heap w' !! r = Some (recorded applyStep t s)
            ∧ dom (heap w) ⊆ dom (heap w')
}.

(** Read the fields of the object behind a reference. *)
Definition tr_read (tr : nat) : Eff Transaction := λ w,
  match heap w !! tr with
  | Some t => Some (t, w)
  | None => None
  end.

Definition tr_delete {editor : Editor} (tr : nat) (from to : Z) : Eff nat :=
  tr_step tr (DeleteStep from to).


Definition tr_replaceWith {editor : Editor} (tr : nat) (from to : Z)
    (node : ProsemirrorNode) : Eff nat :=
  tr_step tr (ReplaceWithStep from to node).

(** [Object.assign(Object.create(tr), tr).setTime(Date.now())]: a new object
    with the fields of [tr] and the time stamp reset. *)
Definition cloneTr (tr : nat) : Eff nat := λ w,
  match heap w !! tr with
  | Some t =>
      let l := fresh (dom (heap w)) in
      let t' := {| doc := doc t; curSelection := curSelection t;
                   steps := steps t; time := now w |} in
      Some (l, {| heap := <[l := t']> (heap w); now := now w |})
  | None => None
  end.

(** ** What the framework refuses *)

(** How a call ends that the framework may refuse: in the [RangeError] it
    throws, or with its value. *)
Inductive Checked (A : Type) :=
| RangeError
| Fine (a : A).
Arguments RangeError {A}.
Arguments Fine {A} a.

(** The offsets of a document: from 0 to the size of its content. *)
Definition inRange (d : ProsemirrorNode) (pos : Z) : bool :=
  (0 <=? pos) && (pos <=? contentSize d).

(** [doc.resolve(pos)]: the framework refuses an offset that is not one of
    the document. *)
Definition doc_resolve {editor : Editor} (d : ProsemirrorNode) (pos : Z)
    : Checked ResolvedPos :=
  if inRange d pos then Fine (resolve d pos) else RangeError.

(** [$pos.before(depth)] and [$pos.after(depth)]: the framework refuses
    depth 0, there being no offset before or after the document. *)
Definition pos_before (rpos : ResolvedPos) (depth : nat) : Checked Z :=
  match depth with
  | O => RangeError
  | S _ => Fine (rp_before rpos depth)
  end.

Definition pos_after (rpos : ResolvedPos) (depth : nat) : Checked Z :=
  match depth with
  | O => RangeError
  | S _ => Fine (rp_after rpos depth)
  end.

(** Go on with the value of a checked call; a [RangeError] ends the helper
    there and then. *)
Definition check {A B} (c : Checked A) (k : A → Eff (Checked B))
    : Eff (Checked B) :=
  match c with
  | RangeError => mret RangeError
  | Fine a => k a
  end.

(** [return m]: the helper returns the reference [m] computes. *)
Definition fine {A} (m : Eff A) : Eff (Checked A) := a ← m; mret (Fine a).

(** Modelled from the spec: [findParentNodeOfType] of [./ancestors], the
    module the transform helpers import it from, which is not among the
    sources: the nearest ancestor of one of the types, searched from the
    anchor [$from] of the selection, as the function of that name in
    [selection.ts] does. *)
Definition ancestors_findParentNodeOfType (nodeType : NodeTypes)
    (selection : Selection) : option ContentNodeWithPos :=
  findParentNodeOfType nodeType selection.

(** ** The helpers *)

Section Transforms.
Context {editor : Editor}.

Definition replaceNodeAtPos (position : Z) (node : ProsemirrorNode)
    (tr : nat) : Eff (Checked nat) :=
  t ← tr_read tr;
  check (doc_resolve (doc t) position) (λ rpos,
  check (pos_before rpos (rp_depth rpos)) (λ from,
  check (pos_after rpos (rp_depth rpos)) (λ to,
    if canReplaceWith (doc t)
         (rp_index rpos (rp_depth rpos))
         (rp_indexAfter rpos (rp_depth rpos))
         (type node)
    then fine (r ← tr_replaceWith tr from to node; cloneTr r)
    else mret (Fine tr)))).

(** The [node] argument may be left out by the caller. *)
Definition removeNodeAtPos (position : Z) (node : option ProsemirrorNode)
    (tr : nat) : Eff (Checked nat) :=
  t ← tr_read tr;
  check (doc_resolve (doc t) position) (λ rpos,
  check (pos_before rpos (rp_depth rpos)) (λ from,
  check (pos_after rpos (rp_depth rpos)) (λ to,
    fine (r ← tr_delete tr from to; cloneTr r)))).

Definition removeParentNodeOfType (nodeType : NodeTypes) (tr : nat)
    : Eff (Checked nat) :=
  t ← tr_read tr;
  match ancestors_findParentNodeOfType nodeType (curSelection t) with
  | Some parent => removeNodeAtPos (cn_pos parent) None tr
  | None => mret (Fine tr)
  end.





End Transforms.

(* ===================================================================== *)
(** * Part V.  Reference enumerations and sample data                     *)
(* ===================================================================== *)

(** The direct children of a fragment that starts at [pos], each with the
    offset just before it. *)
Fixpoint childrenWithPos (l : list ProsemirrorNode) (pos : Z) : list NodeWithPos :=
  match l with
  | [] => []
  | c :: r => mkNodeWithPos c pos :: childrenWithPos r (pos + nodeSize c)
  end.

(** Every descendant of [n], in document order, with the offset just before
    it; the content of [n] starts at [start]. *)
Fixpoint allDescendants (n : ProsemirrorNode) (start : Z) : list NodeWithPos :=
  match n with
  | BranchNode _ cs =>
      (fix go (l : list ProsemirrorNode) (pos : Z) : list NodeWithPos :=
         match l with
         | [] => []
         | c :: r =>
             mkNodeWithPos c pos :: allDescendants c (pos + 1)
               ++ go r (pos + nodeSize c)
         end) cs start
  | _ => []
  end.

Fixpoint fragmentDescendants (l : list ProsemirrorNode) (pos : Z)
    : list NodeWithPos :=
  match l with
  | [] => []
  | c :: r =>
      mkNodeWithPos c pos :: allDescendants c (pos + 1)
        ++ fragmentDescendants r (pos + nodeSize c)
  end.

(** Documents of the editing framework never hold an empty text node. *)
Fixpoint wellFormed (n : ProsemirrorNode) : Prop :=
  match n with
  | TextNode _ s => s ≠ ""%string
  | LeafNode _ => True
  | BranchNode _ cs =>
      (fix all (l : list ProsemirrorNode) : Prop :=
         match l with
         | [] => True
         | c :: r => wellFormed c ∧ all r
         end) cs
  end.

(** What recording the step [s] does to the fields of a transaction. *)
Definition stepped {editor : Editor} (t : Transaction) (s : Step) : Transaction :=
  recorded applyStep t s.

(** The fields of a clone of [t] made at time [n]. *)
Definition cloned (t : Transaction) (n : Z) : Transaction :=
  {| doc := doc t; curSelection := curSelection t; steps := steps t; time := n |}.

(** The outcome [out] of a helper, run in the store [w] on the transaction
    [tr] with fields [t], is an edit that went through: the helper returned
    a reference [r] to a new object (different from [tr], and naming nothing
    in [w]) that holds the clone, stamped with the current time, of the
    transaction with the step [s] recorded. *)
Definition commits {editor : Editor} (w : World) (tr : nat) (t : Transaction)
    (s : Step) (out : option (nat * World)) : Prop :=
  ∃ r w',
    out = Some (r, w')
    ∧ r ≠ tr
    ∧ heap w !! r = None
    ∧ heap w' !! r = Some (cloned (stepped t s) (now w')).

(** The same of a helper that the framework may stop: it ran to its end
    and the edit went through. *)
Definition commitsChecked {editor : Editor} (w : World) (tr : nat)
    (t : Transaction) (s : Step) (out : option (Checked nat * World)) : Prop :=
  ∃ r w',
    out = Some (Fine r, w')
    ∧ r ≠ tr
    ∧ heap w !! r = None
    ∧ heap w' !! r = Some (cloned (stepped t s) (now w')).


(** ** A sample document, schema and store *)

Definition blockquote_ab : ProsemirrorNode := BranchNode "blockquote" [paragraph_ab].

(** [doc(blockquote(paragraph("ab")))].  Offsets: 0 before the blockquote,
    1 before the paragraph, 2 before "a", 3 between "a" and "b", 4 after
    "b", 5 after the paragraph, 6 after the blockquote. *)
Definition doc_bq : ProsemirrorNode := BranchNode "doc" [blockquote_ab].

Definition horizontal_rule : ProsemirrorNode := LeafNode "horizontal_rule".

(** [doc(paragraph("ab"), blockquote(paragraph("ab")))]: a paragraph that is
    a child of the document and one that is a grandchild. *)
Definition doc_mixed : ProsemirrorNode := BranchNode "doc" [paragraph_ab; blockquote_ab].

(** One level of the path of a resolved position: the node, the index into
    its content and the offset of that index. *)
Record PathEntry := mkPathEntry {
  pe_node : ProsemirrorNode;
  pe_index : nat;
  pe_offset : Z
}.

(** The path from [node], whose content starts at [start], down to the
    offset [parentOffset] of its content: at every level the child that
    holds the offset is entered, unless the offset falls on a boundary
    between children or inside a text node. *)
Fixpoint resolvePath (node : ProsemirrorNode) (parentOffset start : Z)
    : list PathEntry :=
  match node with
  | BranchNode _ cs =>
      (fix find (l : list ProsemirrorNode) (i : nat) (curPos : Z) : list PathEntry :=
         match l with
         | [] => [mkPathEntry node i (start + curPos)]
         | c :: r =>
             if parentOffset <=? curPos
             then [mkPathEntry node i (start + curPos)]
             else if parentOffset <? curPos + nodeSize c
             then mkPathEntry node i (start + curPos)
                    :: (if isText c then []
                        else resolvePath c (parentOffset - curPos - 1)
                               (start + curPos + 1))
             else find r (S i) (curPos + nodeSize c)
         end) cs 0%nat 0
  | _ => [mkPathEntry node 0 start]
  end.

(** A resolver for the examples, after the one of the editing framework.
    The fields [before] and [after] at depth 0, where the framework has no
    offset before or after the document, are never read by the helpers:
    [pos_before] and [pos_after] refuse that depth. *)
Definition sample_resolve (d : ProsemirrorNode) (pos : Z) : ResolvedPos :=
  let path := resolvePath d pos 0 in
  let depth := (length path - 1)%nat in
  let entry := λ k : nat, nth k path (mkPathEntry d 0 0) in
  let textOffset := pos - pe_offset (entry depth) in
  {| rp_pos := pos;
     rp_depth := depth;
     rp_node := λ k, pe_node (entry k);
     rp_index := λ k, pe_index (entry k);
     rp_indexAfter := λ k,
       (pe_index (entry k)
        + if (k =? depth)%nat && (textOffset =? 0)%Z then 0 else 1)%nat;
     rp_start := λ k,
       match k with O => 0 | S j => pe_offset (entry j) + 1 end;
     rp_before := λ k,
       match k with
       | O => 0
       | S j => if (depth <? k)%nat then pos else pe_offset (entry j)
       end;
     rp_after := λ k,
       match k with
       | O => contentSize d
       | S j => if (depth <? k)%nat then pos
                else pe_offset (entry j) + nodeSize (pe_node (entry k))
       end |}.

Definition doc_bq_at3 : ResolvedPos := sample_resolve doc_bq 3.

(** A schema in which the document takes any number of blocks, a blockquote
    any number of paragraphs and nothing else, a paragraph any amount of
    text and nothing else: content [(paragraph | blockquote |
    horizontal_rule)*], [paragraph*] and [text*].  No index matters, and
    any container may be empty. *)
Definition sample_canReplaceWith (container : ProsemirrorNode) (from to : nat)
    (ty : NodeType) : bool :=
  if bool_decide (type container = "doc")
  then bool_decide (ty ∈ ["paragraph"; "blockquote"; "horizontal_rule"])
  else if bool_decide (type container = "blockquote")
  then bool_decide (ty = "paragraph")
  else if bool_decide (type container = "paragraph")
  then bool_decide (ty = "text")
  else false.

(** The children of a fragment left once those before the offset [to] are
    dropped; [pos] is the offset of the first child. *)
Fixpoint dropUntil (l : list ProsemirrorNode) (pos to : Z) : list ProsemirrorNode :=
  match l with
  | [] => []
  | c :: r => if pos <? to then dropUntil r (pos + nodeSize c) to else l
  end.

(** Whether the container [n] takes every node of [ins] in the sample
    schema. *)
Definition takesAll (n : ProsemirrorNode) (ins : list ProsemirrorNode) : bool :=
  forallb (λ i, sample_canReplaceWith n 0 0 (type i)) ins.

(** The container [n], its content cut into [before], the span and
    [after], with [ins] in place of the span.  If the schema lets [n] take
    [ins], the one node is the result.  If not, [n] is split around the
    span: the part before it is kept, even when empty, [ins] is handed to
    the node around [n], and the part after it follows, unless empty. *)
Definition fitInto (n : ProsemirrorNode) (before ins after : list ProsemirrorNode)
    : ProsemirrorNode * list ProsemirrorNode * option ProsemirrorNode :=
  if takesAll n ins
  then (BranchNode (type n) (before ++ ins ++ after), [], None)
  else (BranchNode (type n) before, ins,
        match after with
        | [] => None
        | _ => Some (BranchNode (type n) after)
        end).

(** Replace what lies between the offsets [from] and [to] of the content of
    [n] by the nodes [ins], fitted to the sample schema as the framework
    fits a replacement; both offsets are taken to fall between children of
    one node.  The result is [n] with the span replaced, or what is left of
    [n] before the span, the nodes handed to the node around it, and what is
    left of [n] after the span. *)
Fixpoint replaceFit (n : ProsemirrorNode) (from to : Z)
    (ins : list ProsemirrorNode)
    : ProsemirrorNode * list ProsemirrorNode * option ProsemirrorNode :=
  match n with
  | BranchNode t cs =>
      (fix loop (before l : list ProsemirrorNode) (pos : Z)
           : ProsemirrorNode * list ProsemirrorNode * option ProsemirrorNode :=
         match l with
         | [] => if pos =? from then fitInto n before ins [] else (n, [], None)
         | c :: r =>
             if pos =? from
             then fitInto n before ins (dropUntil l pos to)
             else if (pos <? from) && (to <? pos + nodeSize c)
             then let '(c', pending, rest) :=
                    replaceFit c (from - pos - 1) (to - pos - 1) ins in
                  fitInto n (before ++ [c']) pending (option_list rest ++ r)
             else loop (before ++ [c]) r (pos + nodeSize c)
         end) [] cs 0
  | _ => (n, [], None)
  end.

(** The document [d] with the span replaced; nodes that the document itself
    does not take are dropped, and the span is only deleted. *)
Definition replaceRange (d : ProsemirrorNode) (from to : Z)
    (ins : list ProsemirrorNode) : ProsemirrorNode :=
  match replaceFit d from to ins with
  | (d', [], _) => d'
  | _ => (replaceFit d from to []).1.1
  end.

(** Steps that replace whole nodes. *)
Definition sample_applyStep (d : ProsemirrorNode) (s : Step) : ProsemirrorNode :=
  match s with
  | DeleteStep from to => replaceRange d from to []
  | InsertStep pos n => replaceRange d pos pos [n]
  | ReplaceWithStep from to n => replaceRange d from to [n]
  end.

(** The edit primitive as the framework has it: the transaction object
    itself records the step and moves to the new document, and the call
    returns [this]. *)
Definition sample_tr_step (tr : nat) (s : Step) : Eff nat := λ w,
  match heap w !! tr with
  | Some t =>
      Some (tr, {| heap := <[tr := recorded sample_applyStep t s]> (heap w);
                   now := now w |})
  | None => None
  end.

(** The editor of the examples. *)
Definition sample_editor : Editor.
Proof.
  refine {| resolve := sample_resolve;
            canReplaceWith := sample_canReplaceWith;
            applyStep := sample_applyStep;
            tr_step := sample_tr_step;
            tr_step_records := _ |}.
  intros w tr t s Ht. unfold sample_tr_step. rewrite Ht.
  eexists _, _. split; [reflexivity |]. simpl. split.
  - apply lookup_insert_eq.
  - rewrite dom_insert_L. apply union_subseteq_r.
Defined.

(** A transaction on [doc_bq] with the caret at offset 3, and one with the
    paragraph selected as a node. *)
Definition tr_caret : Transaction :=
  {| doc := doc_bq; curSelection := TextSelection doc_bq_at3 doc_bq_at3;
     steps := []; time := 0 |}.


Definition world_caret : World := {| heap := {[ 7%nat := tr_caret ]}; now := 1000 |}.




(** ** A sample rendered tree: [<p>ab<br></p>] *)

Definition dom_p : DomRef :=
  {| dr_node := DomElement "p" [DomText "ab"; DomElement "br" []]; dr_up := [] |}.

(** Its text node and its line break. *)
Definition dom_text : DomRef :=
  {| dr_node := DomText "ab";
     dr_up := [{| df_tag := "p"; df_left := []; df_right := [DomElement "br" []] |}] |}.

Definition dom_br : DomRef :=
  {| dr_node := DomElement "br" [];
     dr_up := [{| df_tag := "p"; df_left := [DomText "ab"]; df_right := [] |}] |}.

(* ===================================================================== *)
(** * Part V-b.  The other functions of the three files                   *)
(* ===================================================================== *)

(** ** node.ts: the searches by kind of node *)

(** [node.isInline] and [node.isBlock] are read off the type of the node;
    which types are inline and which are block is the schema's to say. *)
Class NodeKinds := {
  inlineType : NodeType → bool;
  blockType : NodeType → bool
}.

Definition isInline {kinds : NodeKinds} (n : ProsemirrorNode) : bool :=
  inlineType (type n).

Definition isBlock {kinds : NodeKinds} (n : ProsemirrorNode) : bool :=
  blockType (type n).

Definition findInlineNodes {kinds : NodeKinds} (node : option ProsemirrorNode)
    (descend : OptBool) :=
  findChildren node (Some isInline) descend.

Definition findBlockNodes {kinds : NodeKinds} (node : option ProsemirrorNode)
    (descend : OptBool) :=
  findChildren node (Some isBlock) descend.

(** ** node.ts: [findChildrenByAttr] *)

(** What a call may throw: one of the two [Error]s of the file, or the
    [TypeError] of the engine for a call of something that is no function. *)
Inductive Thrown :=
| ThrownInvalid (e : InvalidArgument)
| ThrownTypeError.

Inductive Outcome (A : Type) :=
| Raises (e : Thrown)
| Yields (a : A).
Arguments Raises {A} e.
Arguments Yields {A} a.

(** [array.filter(f)] for a callback that may throw: the callback is called
    on the elements in order, and the first throw ends the call. *)
Fixpoint filterOutcome {A} (f : A → Outcome bool) (l : list A) : Outcome (list A) :=
  match l with
  | [] => Yields []
  | x :: r =>
      match f x with
      | Raises e => Raises e
      | Yields b =>
          match filterOutcome f r with
          | Raises e => Raises e
          | Yields r' => Yields (if b then x :: r' else r')
          end
      end
  end.

(** [findChildren] called with a function that may throw. *)
Definition findChildrenOutcome (node : option ProsemirrorNode)
    (predicate : option (ProsemirrorNode → Outcome bool)) (descend : OptBool)
    : Outcome (list NodeWithPos) :=
  match node with
  | None => Raises (ThrownInvalid InvalidNodeParameter)
  | Some _ =>
      match predicate with
      | None => Raises (ThrownInvalid InvalidPredicateParameter)
      | Some predicate =>
          match flatten node descend with
          | Throw e => Raises (ThrownInvalid e)
          | Return l => filterOutcome (λ child, predicate (nwp_node child)) l
          end
      end
  end.

(** The call [predicate(child)] of a predicate that may be missing. *)
Definition callPredicate (predicate : option Predicate) (child : ProsemirrorNode)
    : Outcome bool :=
  match predicate with
  | None => Raises ThrownTypeError
  | Some p => Yields (p child)
  end.

(** [findChildrenByAttr]: the function handed to [findChildren] is the arrow
    [child => !!predicate(child)], which is there whether or not [predicate]
    is. *)
Definition findChildrenByAttr (node : option ProsemirrorNode)
    (predicate : option Predicate) (descend : OptBool)
    : Outcome (list NodeWithPos) :=
  findChildrenOutcome node
    (Some (λ child,
       match callPredicate predicate child with
       | Raises e => Raises e
       | Yields b => Yields (negb (negb b))
       end))
    descend.

(** A [Completion] as an [Outcome]. *)
Definition outcomeOf {A} (c : Completion A) : Outcome A :=
  match c with
  | Throw e => Raises (ThrownInvalid e)
  | Return a => Yields a
  end.

(** An entry moved by [delta]. *)
Definition shiftPos (delta : Z) (x : NodeWithPos) : NodeWithPos :=
  mkNodeWithPos (nwp_node x) (nwp_pos x + delta).

(** Entries in document order: strictly increasing offsets. *)
Definition before_in_document (x y : NodeWithPos) : Prop := nwp_pos x < nwp_pos y.

(** ** selection.ts: the view reference of an ancestor of a type *)

Definition findParentDomRefOfType (nodeType : NodeTypes) (domAtPos : DomAtPos)
    (selection : Selection) : option DomRef :=
  findParentDomRef (λ node, equalNodeType nodeType node) domAtPos selection.

(** A schema of kinds for the examples: text and line breaks are inline,
    everything else is a block. *)
Definition sample_kinds : NodeKinds :=
  {| inlineType := λ ty, bool_decide (ty ∈ ["text"; "hard_break"]);
     blockType := λ ty, negb (bool_decide (ty ∈ ["text"; "hard_break"])) |}.

(* ===================================================================== *)
(** * Part VI.  Theorems                                                  *)
(* ===================================================================== *)

(** ** Sizes and the enumeration primitive *)

Lemma nodeSize_branch t cs : nodeSize (BranchNode t cs) = 2 + fragmentSize cs.
Proof. reflexivity. Qed.

Lemma fragmentSize_app l1 l2 :
  fragmentSize (l1 ++ l2) = fragmentSize l1 + fragmentSize l2.
Proof. induction l1 as [|c r IH]; simpl; [done | lia]. Qed.

Lemma nodesBetween_branch {St} (f : ProsemirrorNode → Z → St → bool * St)
    t cs nodeStart st :
  nodesBetween f (BranchNode t cs) nodeStart st
  = fragmentNodesBetween f cs nodeStart 0 st.
Proof.
  simpl.
  match goal with
  | |- ?loop cs 0 st = _ =>
      enough (∀ pos st', loop cs pos st' = fragmentNodesBetween f cs nodeStart pos st')
        as Hloop by apply Hloop
  end.
  induction cs as [|c r IH]; intros pos st'; simpl; [done |].
  destruct (f c (nodeStart + pos) st') as [enter st1]. apply IH.
Qed.

Lemma allDescendants_branch t cs start :
  allDescendants (BranchNode t cs) start = fragmentDescendants cs start.
Proof.
  simpl. revert start.
  induction cs as [|c r IH]; intros start; simpl; [done |].
  by rewrite IH.
Qed.

Lemma wellFormed_branch t cs :
  wellFormed (BranchNode t cs) ↔ Forall wellFormed cs.
Proof.
  simpl. induction cs as [|c r IH]; [by split; [constructor |] |].
  rewrite Forall_cons, IH. done.
Qed.

(** Induction over documents, with the hypothesis for every child. *)
Lemma ProsemirrorNode_forall_ind (P : ProsemirrorNode → Prop) :
  (∀ t s, P (TextNode t s)) →
  (∀ t, P (LeafNode t)) →
  (∀ t cs, Forall P cs → P (BranchNode t cs)) →
  ∀ n, P n.
Proof.
  intros Htext Hleaf Hbranch.
  fix IH 1. intros [t s | t | t cs]; [apply Htext | apply Hleaf |].
  apply Hbranch. induction cs as [|c r IHr]; constructor; [apply IH | apply IHr].
Qed.

Lemma nodeSize_pos n : wellFormed n → 0 < nodeSize n.
Proof.
  induction n as [t s | t | t cs IH] using ProsemirrorNode_forall_ind.
  - simpl. destruct s; [done | simpl; lia].
  - simpl. lia.
  - intros Hwf. apply wellFormed_branch in Hwf. rewrite nodeSize_branch.
    assert (0 ≤ fragmentSize cs); [| lia].
    induction cs as [|c r IHr]; simpl; [lia |].
    inversion IH; subst. inversion Hwf; subst.
    assert (0 < nodeSize c) by auto. assert (0 ≤ fragmentSize r) by auto. lia.
Qed.

Lemma contentSize_zero n :
  wellFormed n → contentSize n = 0 → content n = [].
Proof.
  destruct n as [t s | t | t cs]; simpl; try done.
  intros Hwf. change (fragmentSize cs = 0 → cs = []).
  destruct cs as [|c r]; [done |]. simpl. intros Hz. exfalso.
  destruct Hwf as [Hc Hr].
  assert (0 < nodeSize c) by (by apply nodeSize_pos).
  assert (0 ≤ fragmentSize r); [| lia].
  clear Hz. induction r as [|c' r' IH]; simpl; [lia |].
  destruct Hr as [Hc' Hr'].
  assert (0 < nodeSize c') by (by apply nodeSize_pos).
  specialize (IH Hr'). lia.
Qed.

(** ** [flatten] without descent *)

Lemma fragmentNodesBetween_shallow descend l nodeStart pos acc :
  truthy descend = false →
  fragmentNodesBetween (flatten_callback descend) l nodeStart pos acc
  = acc ++ childrenWithPos l (nodeStart + pos).
Proof.
  intros Hd. revert pos acc.
  induction l as [|c r IH]; intros pos acc; simpl.
  - by rewrite app_nil_r.
  - unfold flatten_callback at 1. rewrite Hd. simpl.
    rewrite IH, <- app_assoc. simpl. do 3 f_equal. lia.
Qed.

Lemma flatten_falsy node descend :
  truthy descend = false →
  flatten (Some node) descend = Return (childrenWithPos (content node) 0).
Proof.
  intros Hd. unfold flatten, descendants. f_equal.
  destruct node as [t s | t | t cs]; try done.
  rewrite nodesBetween_branch, fragmentNodesBetween_shallow by done. done.
Qed.

Lemma childrenWithPos_nodes l pos : nwp_node <$> childrenWithPos l pos = l.
Proof.
  revert pos. induction l as [|c r IH]; intros pos; simpl; [done |].
  by rewrite IH.
Qed.

Lemma childrenWithPos_lookup l pos i c :
  childrenWithPos l pos !! i = Some c →
  l !! i = Some (nwp_node c) ∧ nwp_pos c = pos + fragmentSize (take i l).
Proof.
  revert pos i. induction l as [|x r IH]; intros pos i; [done |].
  destruct i as [|i]; simpl.
  - intros [= <-]. simpl. split; [done | lia].
  - intros Hi. apply IH in Hi as [-> ->]. split; [done | lia].
Qed.

(** ** [flatten] with descent *)

Lemma nodesBetween_deep n :
  wellFormed n →
  ∀ start acc,
    nodesBetween (flatten_callback (given true)) n start acc
    = acc ++ allDescendants n start.
Proof.
  induction n as [t s | t | t cs IH] using ProsemirrorNode_forall_ind;
    intros Hwf start acc; try (by rewrite app_nil_r).
  rewrite nodesBetween_branch, allDescendants_branch.
  apply wellFormed_branch in Hwf.
  enough (∀ pos acc',
            fragmentNodesBetween (flatten_callback (given true)) cs start pos acc'
            = acc' ++ fragmentDescendants cs (start + pos)) as Hloop.
  { rewrite Hloop. by rewrite Z.add_0_r. }
  clear acc.
  induction cs as [|c r IHr]; intros pos acc; simpl.
  - by rewrite app_nil_r.
  - inversion IH as [|? ? IHc IHrest]; subst.
    inversion Hwf as [|? ? Hc Hrest]; subst.
    rewrite (IHr IHrest Hrest).
    replace (start + (pos + nodeSize c)) with (start + pos + nodeSize c) by lia.
    destruct (contentSize c =? 0) eqn:Hz; simpl.
    + apply Z.eqb_eq in Hz. apply contentSize_zero in Hz; [| done].
      assert (allDescendants c (start + pos + 1) = []) as ->.
      { destruct c; simpl in *; try done. by subst. }
      simpl. by rewrite <- app_assoc.
    + rewrite (IHc Hc). rewrite <- !app_assoc. done.
Qed.

Lemma flatten_deep node :
  wellFormed node →
  flatten (Some node) (given true) = Return (allDescendants node 0).
Proof.
  intros Hwf. unfold flatten, descendants. by rewrite nodesBetween_deep.
Qed.

(** ** Claims about [node.ts] *)

(** Claim C7.  For every node [T], whatever its depth, [flatten(T, false)]
    returns one entry per direct child of [T], in order, and nothing else:
    the nodes of the result are exactly the children of [T] (so every sibling
    is visited and no descendant of a child is), each with the offset just
    before it. *)
Theorem flatten_no_descend_direct_children (T : ProsemirrorNode) :
  ∃ l : list NodeWithPos,
    flatten (Some T) (given false) = Return l
    ∧ nwp_node <$> l = content T
    ∧ length l = length (content T)
    ∧ ∀ (i : nat) (c : NodeWithPos),
        l !! i = Some c →
        content T !! i = Some (nwp_node c)
        ∧ nwp_pos c = fragmentSize (take i (content T)).
Proof.
  exists (childrenWithPos (content T) 0).
  split; [by apply flatten_falsy |].
  split; [apply childrenWithPos_nodes |].
  split.
  - by rewrite <- (childrenWithPos_nodes (content T) 0) at 2; rewrite length_fmap.
  - intros i c Hi. by apply childrenWithPos_lookup in Hi as [? ->].
Qed.

(** What [flatten] does with [descend] left out or passed as [null]: the
    same as with [false]. *)
Lemma flatten_absent_descend node descend :
  descend = undefined ∨ descend = null →
  flatten (Some node) descend = flatten (Some node) (given false).
Proof. intros [-> | ->]; by rewrite !flatten_falsy. Qed.

(** Claim C2, at the input where the code departs from it.  The claim wants
    [flatten(T)] with [descend] left out to list every descendant; on
    [doc(paragraph("ab"))] the code returns the paragraph only and misses the
    text node at offset 1, which the call with [descend = true] does list. *)
Theorem flatten_default_misses_grandchildren :
  flatten (Some doc_p) undefined = Return [mkNodeWithPos paragraph_ab 0]
  ∧ allDescendants doc_p 0
    = [mkNodeWithPos paragraph_ab 0; mkNodeWithPos (TextNode "text" "ab") 1]
  ∧ flatten (Some doc_p) (given true) = Return (allDescendants doc_p 0).
Proof. repeat split; reflexivity. Qed.

Lemma filter_childrenWithPos_length (p : Predicate) l pos :
  negb (length (filter (λ child, p (nwp_node child) = true)
                  (childrenWithPos l pos)) =? 0)%nat
  = existsb p l.
Proof.
  revert pos. induction l as [|c r IH]; intros pos; simpl; [done |].
  rewrite filter_cons. simpl. destruct (decide (p c = true)) as [-> | Hp]; [done |].
  apply not_true_is_false in Hp. rewrite Hp. apply IH.
Qed.

(** What [contains] computes: whether some direct child has the type. *)
Lemma contains_direct_children node nodeType :
  contains (Some node) nodeType
  = Return (existsb (λ child, bool_decide (type child = nodeType)) (content node)).
Proof.
  unfold contains, findChildrenByType, findChildren.
  rewrite flatten_falsy by done. f_equal.
  exact (filter_childrenWithPos_length
           (λ child, bool_decide (type child = nodeType)) (content node) 0).
Qed.

(** Claim C1, at the input where the code departs from it.  The claim wants
    [contains(T, ty)] to hold exactly when the full-depth search
    [findChildrenByType(T, ty, true)] finds something; on a table whose only
    cell sits inside a row, the full-depth search finds the cell and
    [contains] answers [false]. *)
Theorem contains_misses_nested_cell :
  contains (Some table_1x1) "table_cell" = Return false
  ∧ findChildrenByType (Some table_1x1) "table_cell" (given true)
    = Return [mkNodeWithPos cell_x 1].
Proof. split; reflexivity. Qed.

(** Claim C8.  [flatten] throws the invalid-argument error when its node is
    absent; [findChildren] throws it when its node is absent (whatever the
    predicate) and when its predicate is absent; with the arguments present
    both return a list. *)
Theorem descendant_search_preconditions :
  (∀ descend, flatten None descend = Throw InvalidNodeParameter)
  ∧ (∀ predicate descend,
       findChildren None predicate descend = Throw InvalidNodeParameter)
  ∧ (∀ node descend,
       findChildren (Some node) None descend = Throw InvalidPredicateParameter)
  ∧ (∀ node descend, ∃ l, flatten (Some node) descend = Return l)
  ∧ (∀ node predicate descend,
       ∃ l, findChildren (Some node) (Some predicate) descend = Return l).
Proof.
  repeat split; try done.
  - intros node descend. by eexists.
  - intros node predicate descend. by eexists.
Qed.

(** ** Claims about [selection.ts] *)

(** The shape of a result of the ancestor search at depth [d]. *)
Lemma findParentNodeClosestToPos_loop_spec rpos (P : Predicate) (i : nat) :
  match findParentNodeClosestToPos_loop rpos P i with
  | Some r =>
      (1 ≤ cn_depth r ≤ i)%nat
      ∧ P (rp_node rpos (cn_depth r)) = true
      ∧ (∀ j, (cn_depth r < j ≤ i)%nat → P (rp_node rpos j) = false)
      ∧ r = {| cn_pos := rp_before rpos (cn_depth r);
               cn_start := rp_start rpos (cn_depth r);
               cn_depth := cn_depth r;
               cn_node := rp_node rpos (cn_depth r) |}
  | None => ∀ j, (1 ≤ j ≤ i)%nat → P (rp_node rpos j) = false
  end.
Proof.
  induction i as [|i IH].
  - simpl. intros j Hj. lia.
  - cbn [findParentNodeClosestToPos_loop].
    destruct (P (rp_node rpos (S i))) eqn:HP.
    + cbn [cn_depth]. split_and!; try done; try lia.
    + destruct (findParentNodeClosestToPos_loop rpos P i) as [r|].
      * destruct IH as (Hd & Hr & Hin & Heq). split_and!; try done; try lia.
        intros j Hj. destruct (decide (j = S i)) as [-> | Hne]; [done |].
        apply Hin. lia.
      * intros j Hj. destruct (decide (j = S i)) as [-> | Hne]; [done |].
        apply IH. lia.
Qed.

(** Claim C5.  [findParentNodeClosestToPos($pos, P)] looks at the depths
    from [$pos.depth] down to 1.  When it returns a result, this is the
    ancestor at some depth [d] with [1 ≤ d ≤ $pos.depth] (never the root)
    that satisfies [P], no deeper ancestor satisfies [P], and the result is
    [{pos: before(d), start: start(d), depth: d, node: node(d)}].  It returns
    nothing exactly when no ancestor at a depth from 1 to [$pos.depth]
    satisfies [P]. *)
Theorem findParentNodeClosestToPos_innermost (rpos : ResolvedPos) (P : Predicate) :
  (∀ r, findParentNodeClosestToPos rpos P = Some r →
        (1 ≤ cn_depth r ≤ rp_depth rpos)%nat
        ∧ P (rp_node rpos (cn_depth r)) = true
        ∧ (∀ j, (cn_depth r < j ≤ rp_depth rpos)%nat → P (rp_node rpos j) = false)
        ∧ r = {| cn_pos := rp_before rpos (cn_depth r);
                 cn_start := rp_start rpos (cn_depth r);
                 cn_depth := cn_depth r;
                 cn_node := rp_node rpos (cn_depth r) |})
  ∧ (findParentNodeClosestToPos rpos P = None
     ↔ ∀ j, (1 ≤ j ≤ rp_depth rpos)%nat → P (rp_node rpos j) = false).
Proof.
  unfold findParentNodeClosestToPos.
  pose proof (findParentNodeClosestToPos_loop_spec rpos P (rp_depth rpos)) as Hspec.
  destruct (findParentNodeClosestToPos_loop rpos P (rp_depth rpos)) as [r|].
  - split.
    + by intros ? [= <-].
    + split; [done |]. intros Hnone. destruct Hspec as (Hd & Hr & _).
      rewrite Hnone in Hr by done. done.
  - split; [done |]. by split.
Qed.

Lemma nodeType_cases r : nodeType r = TEXT_NODE ∨ nodeType r = ELEMENT_NODE.
Proof. destruct r as [[d | tag cs] up]; [by left | by right]. Qed.

(** A parent is an element: only elements have child nodes. *)
Lemma parentNode_element r p : parentNode r = Some p → nodeType p = ELEMENT_NODE.
Proof. destruct r as [n [|fr up]]; [done |]. by intros [= <-]. Qed.

Lemma parentNode_None r : parentNode r = None ↔ dr_up r = [].
Proof. destruct r as [n [|fr up]]; by split. Qed.

(** Claim C9.  With [{node, offset} = domAtPos(position)]:
    [findDomRefAtPos] returns the parent of [node] when [node] is a text node;
    otherwise it returns [node] itself when there is no child at [offset] or
    that child is a text node, and that child otherwise.  Whatever it returns
    is an element and never a text node, and it does return a node unless
    [node] is a text node without a parent. *)
Theorem findDomRefAtPos_element (position : Z) (domAtPos : DomAtPos) :
  let dom := domAtPos position in
  let result := findDomRefAtPos position domAtPos in
  (nodeType (dom_node dom) = TEXT_NODE → result = parentNode (dom_node dom))
  ∧ (nodeType (dom_node dom) ≠ TEXT_NODE →
     childNode (dom_node dom) (dom_offset dom) = None →
     result = Some (dom_node dom))
  ∧ (∀ child, nodeType (dom_node dom) ≠ TEXT_NODE →
     childNode (dom_node dom) (dom_offset dom) = Some child →
     nodeType child = TEXT_NODE →
     result = Some (dom_node dom))
  ∧ (∀ child, nodeType (dom_node dom) ≠ TEXT_NODE →
     childNode (dom_node dom) (dom_offset dom) = Some child →
     nodeType child ≠ TEXT_NODE →
     result = Some child)
  ∧ (∀ r, result = Some r → nodeType r = ELEMENT_NODE ∧ nodeType r ≠ TEXT_NODE)
  ∧ (result = None
     ↔ nodeType (dom_node dom) = TEXT_NODE ∧ dr_up (dom_node dom) = []).
Proof.
  intros dom result. subst result. unfold findDomRefAtPos. fold dom.
  destruct (Z.eqb_spec (nodeType (dom_node dom)) TEXT_NODE) as [Htext | Hnot].
  - split_and!; try done.
    + intros r Hr. apply parentNode_element in Hr. by rewrite Hr.
    + rewrite parentNode_None. split; [by intros; split | by intros [_ ?]].
  - pose proof (nodeType_cases (dom_node dom)) as [? | Helem]; [done |].
    destruct (childNode (dom_node dom) (dom_offset dom)) as [child |] eqn:Hchild.
    + pose proof (nodeType_cases child) as [Hc | Hc]; rewrite Hc; simpl;
        split_and!; intros; simplify_eq; rewrite ?Helem, ?Hc; try done;
        try (unfold ELEMENT_NODE, TEXT_NODE in *; congruence);
        try (split; intros; destruct_and?; congruence).
    + split_and!; intros; simplify_eq; rewrite ?Helem; try done.
      split; intros; destruct_and?; congruence.
Qed.

(** [findDomRefAtPos] on [<p>ab<br></p>]: from inside the text, the
    paragraph; from the paragraph at the text, the paragraph; at the line
    break, the line break; past the last child, the paragraph. *)
Example findDomRefAtPos_sample :
  findDomRefAtPos 0 (λ _, mkDomPoint dom_text 1) = Some dom_p
  ∧ findDomRefAtPos 0 (λ _, mkDomPoint dom_p 0) = Some dom_p
  ∧ findDomRefAtPos 0 (λ _, mkDomPoint dom_p 1) = Some dom_br
  ∧ findDomRefAtPos 0 (λ _, mkDomPoint dom_p 2) = Some dom_p
  ∧ nodeType dom_text = TEXT_NODE
  ∧ nodeType dom_br = ELEMENT_NODE.
Proof. by split_and!. Qed.

(** ** The store *)

Section TransformFacts.
Context {editor : Editor}.

Lemma tr_read_spec w tr t :
  heap w !! tr = Some t → tr_read tr w = Some (t, w).
Proof. intros Ht. unfold tr_read. by rewrite Ht. Qed.

(** Reading the transaction at the head of a helper. *)
Lemma bind_tr_read {A} (k : Transaction → Eff A) w tr t :
  heap w !! tr = Some t → (tr_read tr ≫= k) w = k t w.
Proof. intros Ht. unfold mbind, Eff_bind. by rewrite (tr_read_spec _ _ _ Ht). Qed.

Lemma cloneTr_spec w tr t :
  heap w !! tr = Some t →
  cloneTr tr w
  = Some (fresh (dom (heap w)),
          {| heap := <[fresh (dom (heap w)) := cloned t (now w)]> (heap w);
             now := now w |}).
Proof. intros Ht. unfold cloneTr. by rewrite Ht. Qed.

(** An edit followed by [cloneTr] goes through. *)
Lemma step_then_clone w tr t s :
  heap w !! tr = Some t →
  commits w tr t s ((r ← tr_step tr s; cloneTr r) w).
Proof.
  intros Ht.
  destruct (tr_step_records w tr t s Ht) as (r1 & w1 & Hstep & Hr1 & Hdom).
  unfold mbind, Eff_bind. rewrite Hstep, (cloneTr_spec _ _ _ Hr1).
  pose proof (is_fresh (dom (heap w1))) as Hfresh.
  set (r := fresh (dom (heap w1))) in *.
  assert (r ∉ dom (heap w)) as Hnew by (intros Hin; apply Hfresh, Hdom, Hin).
  exists r, {| heap := <[r := cloned (recorded applyStep t s) (now w1)]> (heap w1);
               now := now w1 |}.
  split_and!.
  - done.
  - intros ->. apply Hnew. apply elem_of_dom. by exists t.
  - by apply not_elem_of_dom.
  - simpl. apply lookup_insert_eq.
Qed.

(** An edit that went through returned a new reference. *)
Lemma commits_distinct w tr t s r w' :
  commits w tr t s (Some (r, w')) → r ≠ tr.
Proof. by intros (? & ? & [= <- <-] & Hne & _). Qed.

(** A helper that returns the clone of an edit that went through. *)
Lemma fine_commits w tr t s (m : Eff nat) :
  commits w tr t s (m w) → commitsChecked w tr t s (fine m w).
Proof.
  intros (r & w' & Hm & Hne & Hnew & Hr).
  exists r, w'. unfold fine, mbind, Eff_bind. rewrite Hm. by split_and!.
Qed.

Lemma step_then_clone_fine w tr t s :
  heap w !! tr = Some t →
  commitsChecked w tr t s (fine (r ← tr_step tr s; cloneTr r) w).
Proof. intros Ht. by apply fine_commits, step_then_clone. Qed.

(** An offset outside the document stops the helper. *)
Lemma check_doc_resolve_out {B} d pos (k : ResolvedPos → Eff (Checked B)) w :
  inRange d pos = false → check (doc_resolve d pos) k w = Some (RangeError, w).
Proof. intros Hout. unfold doc_resolve. by rewrite Hout. Qed.

Lemma check_doc_resolve_in {B} d pos (k : ResolvedPos → Eff (Checked B)) w :
  inRange d pos = true → check (doc_resolve d pos) k w = k (resolve d pos) w.
Proof. intros Hin. unfold doc_resolve. by rewrite Hin. Qed.

(** ** [replaceNodeAtPos] *)



Lemma removeNodeAtPos_refused position node tr t w :
  heap w !! tr = Some t →
  inRange (doc t) position = false ∨ rp_depth (resolve (doc t) position) = 0%nat →
  removeNodeAtPos position node tr w = Some (RangeError, w).
Proof.
  intros Ht Hbad. unfold removeNodeAtPos. rewrite (bind_tr_read _ _ _ _ Ht).
  destruct (inRange (doc t) position) eqn:Hin.
  - destruct Hbad as [? | Hd]; [done |].
    rewrite (check_doc_resolve_in _ _ _ _ Hin), Hd. done.
  - by apply check_doc_resolve_out.
Qed.

Lemma removeNodeAtPos_deletes position node tr t w :
  heap w !! tr = Some t →
  inRange (doc t) position = true →
  let rpos := resolve (doc t) position in
  rp_depth rpos ≠ 0%nat →
  commitsChecked w tr t
    (DeleteStep (rp_before rpos (rp_depth rpos)) (rp_after rpos (rp_depth rpos)))
    (removeNodeAtPos position node tr w).
Proof.
  intros Ht Hin rpos Hdepth. unfold removeNodeAtPos.
  rewrite (bind_tr_read _ _ _ _ Ht), (check_doc_resolve_in _ _ _ _ Hin).
  fold rpos. destruct (rp_depth rpos) as [|d] eqn:Hd; [done |]. simpl.
  by apply step_then_clone_fine.
Qed.

End TransformFacts.

(** ** Claims about the transform helpers *)

Section TransformClaims.
Context {editor : Editor}.









(** Claim C10.  The outcome of [removeNodeAtPos(position, node)(tr)] is the
    same for any two values of the [node] argument, a missing one included;
    so [removeParentNodeOfType], which calls it without that argument, does
    what a call with any node would do. *)
Theorem removeNodeAtPos_ignores_node :
  (∀ (position : Z) (n1 n2 : option ProsemirrorNode) (tr : nat) (w : World),
     removeNodeAtPos position n1 tr w = removeNodeAtPos position n2 tr w)
  ∧ (∀ (nodeType : NodeTypes) (tr : nat) (t : Transaction) (w : World)
       (parent : ContentNodeWithPos) (n : option ProsemirrorNode),
       heap w !! tr = Some t →
       findParentNodeOfType nodeType (curSelection t) = Some parent →
       removeParentNodeOfType nodeType tr w
       = removeNodeAtPos (cn_pos parent) n tr w).
Proof.
  split; [done |].
  intros nodeType tr t w parent n Ht Hparent.
  unfold removeParentNodeOfType, ancestors_findParentNodeOfType.
  rewrite (bind_tr_read _ _ _ _ Ht), Hparent. done.
Qed.

(** What [removeNodeAtPos] does.  The framework stops it at an offset
    outside the document and at one that resolves to depth 0.  Everywhere
    else it deletes the span of the node around the position and returns a
    new reference: there is no capability check. *)
Lemma removeNodeAtPos_commits position node tr t w :
  heap w !! tr = Some t →
  let rpos := resolve (doc t) position in
  (inRange (doc t) position = false ∨ rp_depth rpos = 0%nat →
   removeNodeAtPos position node tr w = Some (RangeError, w))
  ∧ (inRange (doc t) position = true →
     rp_depth rpos ≠ 0%nat →
     commitsChecked w tr t
       (DeleteStep (rp_before rpos (rp_depth rpos)) (rp_after rpos (rp_depth rpos)))
       (removeNodeAtPos position node tr w)).
Proof.
  intros Ht rpos. split.
  - by apply removeNodeAtPos_refused.
  - by apply removeNodeAtPos_deletes.
Qed.
End TransformClaims.

(** ** The helpers on the sample document *)

(** The sample resolver at offset 3 of [doc(blockquote(paragraph("ab")))]:
    depth 2, inside the paragraph, which starts at 1 and ends at 5, after
    one character of its text. *)
Example sample_resolve_doc_bq_3 :
  rp_depth doc_bq_at3 = 2%nat
  ∧ rp_node doc_bq_at3 0 = doc_bq
  ∧ rp_node doc_bq_at3 1 = blockquote_ab
  ∧ rp_parent doc_bq_at3 = paragraph_ab
  ∧ rp_index doc_bq_at3 2 = 0%nat
  ∧ rp_indexAfter doc_bq_at3 2 = 1%nat
  ∧ rp_before doc_bq_at3 2 = 1
  ∧ rp_after doc_bq_at3 2 = 5
  ∧ rp_after doc_bq_at3 1 = 6.
Proof. by split_and!. Qed.

(** Claim C3, at the input where the code departs from it.  The claim wants
    a new transaction exactly when the container around the position takes
    the node's type over the index range of the position.  At offset 3 of
    [doc(blockquote(paragraph("ab")))], with a horizontal rule to put in,
    neither the paragraph around the position nor the blockquote around that
    paragraph takes a horizontal rule, and [replaceNodeAtPos] still records
    [replaceWith(1, 5, rule)] and returns a new transaction: the check it
    runs is the one of the whole document, which does take the rule. *)
Theorem replaceNodeAtPos_asks_the_document :
  let rpos := resolve (Editor := sample_editor) doc_bq 3 in
  let d := rp_depth rpos in
  canReplaceWith (Editor := sample_editor) (rp_node rpos d)
    (rp_index rpos d) (rp_indexAfter rpos d) (type horizontal_rule) = false
  ∧ canReplaceWith (Editor := sample_editor) (rp_node rpos (d - 1))
      (rp_index rpos (d - 1)) (rp_indexAfter rpos (d - 1)) (type horizontal_rule)
    = false
  ∧ canReplaceWith (Editor := sample_editor) doc_bq
      (rp_index rpos d) (rp_indexAfter rpos d) (type horizontal_rule) = true
  ∧ ∃ r w',
      replaceNodeAtPos (editor := sample_editor) 3 horizontal_rule 7%nat world_caret
      = Some (Fine r, w')
      ∧ r ≠ 7%nat
      ∧ heap w' !! r
        = Some (cloned (stepped (editor := sample_editor) tr_caret
                          (ReplaceWithStep 1 5 horizontal_rule)) 1000).
Proof.
  split_and!; try reflexivity.
  eexists _, _. split; [vm_compute; reflexivity |].
  split; [done | vm_compute; reflexivity].
Qed.

(** The steps of the helpers on the sample document, fitted: a rule put
    in place of the paragraph of the blockquote, which does not take it,
    lands after the blockquote. *)
Example sample_applyStep_doc_bq :
  sample_applyStep doc_bq (ReplaceWithStep 1 5 horizontal_rule)
  = BranchNode "doc" [BranchNode "blockquote" []; horizontal_rule]
  ∧ sample_applyStep doc_bq (InsertStep 6 horizontal_rule)
    = BranchNode "doc" [blockquote_ab; horizontal_rule]
  ∧ sample_applyStep doc_bq (DeleteStep 1 5)
    = BranchNode "doc" [BranchNode "blockquote" []].
Proof. by split_and!. Qed.




(** Claim C10 on the sample: with the caret inside the paragraph,
    [removeParentNodeOfType] for paragraphs is [removeNodeAtPos] at the
    offset 1 of the paragraph found, with the rule, say, as the node. *)
Lemma removeNodeAtPos_ignores_node_witness :
  heap world_caret !! 7%nat = Some tr_caret
  ∧ findParentNodeOfType (OneType "paragraph") (curSelection tr_caret)
    = Some {| cn_pos := 1; cn_start := 2; cn_depth := 2; cn_node := paragraph_ab |}
  ∧ removeParentNodeOfType (editor := sample_editor) (OneType "paragraph")
      7%nat world_caret
    = removeNodeAtPos (editor := sample_editor) 1 (Some horizontal_rule) 7%nat
        world_caret.
Proof.
  split; [reflexivity |]. split; [reflexivity |].
  exact (proj2 (removeNodeAtPos_ignores_node (editor := sample_editor))
           (OneType "paragraph") 7%nat tr_caret world_caret
           {| cn_pos := 1; cn_start := 2; cn_depth := 2; cn_node := paragraph_ab |}
           (Some horizontal_rule) eq_refl eq_refl).
Defined.


(** [flatten] with descent on the sample table: all four descendants. *)
Lemma flatten_deep_witness :
  wellFormed table_1x1
  ∧ flatten (Some table_1x1) (given true) = Return (allDescendants table_1x1 0).
Proof.
  assert (wellFormed table_1x1) as Hwf by (simpl; by split_and!).
  split; [exact Hwf | exact (flatten_deep table_1x1 Hwf)].
Defined.

(* ===================================================================== *)
(** * Part VII.  Further properties of the code                           *)
(* ===================================================================== *)

(** ** Descendant searches *)

(** [findChildren] keeps exactly the entries of [flatten] whose node
    satisfies the predicate, in the order [flatten] lists them. *)
Lemma findChildren_selects node (predicate : Predicate) descend :
  ∃ all found : list NodeWithPos,
    flatten (Some node) descend = Return all
    ∧ findChildren (Some node) (Some predicate) descend = Return found
    ∧ found `sublist_of` all
    ∧ ∀ x, x ∈ found ↔ x ∈ all ∧ predicate (nwp_node x) = true.
Proof.
  unfold findChildren, flatten. eexists _, _.
  split; [reflexivity |]. split; [reflexivity |]. split.
  - apply sublist_filter.
  - intros x. rewrite list_elem_of_filter. tauto.
Qed.

Lemma nodeSize_nonneg n : 0 ≤ nodeSize n.
Proof.
  induction n as [t s | t | t cs IH] using ProsemirrorNode_forall_ind;
    [simpl; lia | simpl; lia |].
  rewrite nodeSize_branch. assert (0 ≤ fragmentSize cs); [| lia].
  induction IH as [|c r Hc _ IHr]; simpl; lia.
Qed.

Lemma fragmentSize_nonneg l : 0 ≤ fragmentSize l.
Proof.
  induction l as [|c r IH]; simpl; [lia |].
  pose proof (nodeSize_nonneg c). lia.
Qed.

Lemma childrenWithPos_sublist l pos :
  childrenWithPos l pos `sublist_of` fragmentDescendants l pos.
Proof.
  revert pos. induction l as [|c r IH]; intros pos; simpl; [done |].
  apply sublist_skip, sublist_inserts_l, IH.
Qed.

Lemma filter_sublist_mono {A} (P : A → Prop) `{!∀ x, Decision (P x)}
    (l1 l2 : list A) :
  l1 `sublist_of` l2 → filter P l1 `sublist_of` filter P l2.
Proof.
  induction 1 as [|x l1 l2 _ IH | x l1 l2 _ IH]; [done | |].
  - rewrite !filter_cons. destruct (decide _); [by apply sublist_skip | done].
  - rewrite (filter_cons _ x l2). destruct (decide _); [by apply sublist_cons | done].
Qed.

(** The children found without descent, among all the descendants. *)
Lemma children_in_descendants node :
  childrenWithPos (content node) 0 `sublist_of` allDescendants node 0.
Proof.
  destruct node as [t s | t | t cs]; simpl content; try done.
  rewrite allDescendants_branch. apply childrenWithPos_sublist.
Qed.

(** On a document without empty text nodes, what the search without descent
    finds is found by the search with descent too, in the same order. *)
Lemma findChildren_shallow_in_deep node (predicate : Predicate) :
  wellFormed node →
  ∃ shallow deep : list NodeWithPos,
    findChildren (Some node) (Some predicate) (given false) = Return shallow
    ∧ findChildren (Some node) (Some predicate) (given true) = Return deep
    ∧ shallow `sublist_of` deep.
Proof.
  intros Hwf. unfold findChildren.
  rewrite flatten_falsy by done.
  unfold flatten, descendants. rewrite nodesBetween_deep by done. simpl.
  eexists _, _. split; [reflexivity |]. split; [reflexivity |].
  apply filter_sublist_mono, children_in_descendants.
Qed.

(** [contains] gives no false positive.  On a document without empty text
    nodes, when [contains(node, nodeType)] answers [true], the search with
    descent [findChildrenByType(node, nodeType, true)] finds something. *)
Lemma contains_true_found_deep node nodeType :
  wellFormed node →
  contains (Some node) nodeType = Return true →
  ∃ x rest, findChildrenByType (Some node) nodeType (given true) = Return (x :: rest).
Proof.
  intros Hwf. unfold contains, findChildrenByType, findChildren.
  rewrite flatten_falsy by done.
  unfold flatten, descendants. rewrite nodesBetween_deep by done. simpl.
  pose proof (filter_sublist_mono
                (λ child, bool_decide (type (nwp_node child) = nodeType) = true)
                _ _ (children_in_descendants node)) as Hsub.
  intros [= Hlen].
  destruct (filter _ (allDescendants node 0)) as [|x rest] eqn:Hdeep; [| by eexists _, _].
  apply sublist_nil_r in Hsub. rewrite Hsub in Hlen. done.
Qed.

(** The descendants listed from [start]: offsets inside the content, in
    strictly increasing order. *)
Lemma allDescendants_ordered n :
  wellFormed n →
  ∀ start,
    Forall (λ x, start ≤ nwp_pos x < start + contentSize n) (allDescendants n start)
    ∧ StronglySorted before_in_document (allDescendants n start).
Proof.
  induction n as [t s | t | t cs IH] using ProsemirrorNode_forall_ind;
    intros Hwf start; try (split; constructor).
  rewrite allDescendants_branch. apply wellFormed_branch in Hwf.
  unfold contentSize. simpl content.
  revert start. induction cs as [|c r IHr]; intros start; simpl.
  - split; constructor.
  - inversion IH as [|? ? IHc IHrest]; subst.
    inversion Hwf as [|? ? Hc Hrest]; subst.
    destruct (IHr IHrest Hrest (start + nodeSize c)) as [Hb2 Hs2].
    destruct (IHc Hc (start + 1)) as [Hb1 Hs1].
    pose proof (nodeSize_pos c Hc) as Hpos.
    pose proof (fragmentSize_nonneg r) as Hr0.
    assert (contentSize c + 2 ≤ nodeSize c ∨ allDescendants c (start + 1) = [])
      as Hsize.
    { destruct c as [? ? | ? | t' cs']; [by right | by right | left].
      rewrite nodeSize_branch. unfold contentSize. simpl. lia. }
    split.
    + constructor; [simpl; lia |]. apply Forall_app. split.
      * destruct Hsize as [Hsize | ->]; [| constructor].
        eapply Forall_impl; [exact Hb1 |]. simpl. intros x Hx. lia.
      * eapply Forall_impl; [exact Hb2 |]. simpl. intros x Hx. lia.
    + apply StronglySorted_cons. split.
      * apply Forall_app. split.
        -- eapply Forall_impl; [exact Hb1 |]. unfold before_in_document. simpl.
           intros x Hx. lia.
        -- eapply Forall_impl; [exact Hb2 |]. unfold before_in_document. simpl.
           intros x Hx. lia.
      * apply StronglySorted_app. split_and!; [| done | done].
        intros x1 x2 Hx1 Hx2. unfold before_in_document.
        rewrite Forall_forall in Hb1, Hb2.
        specialize (Hb1 _ Hx1). specialize (Hb2 _ Hx2).
        destruct Hsize as [Hsize | Hnil]; [lia |].
        rewrite Hnil in Hx1. by apply elem_of_nil in Hx1.
Qed.

(** Document order.  On a document without empty text nodes, [flatten] lists
    its entries by strictly increasing offset, with or without descent, and
    every offset lies inside the content of the node: at least 0 and less
    than the size of the content.  So no two entries share an offset. *)
Lemma flatten_document_order node descend :
  wellFormed node →
  ∃ l : list NodeWithPos,
    flatten (Some node) descend = Return l
    ∧ StronglySorted before_in_document l
    ∧ Forall (λ x, 0 ≤ nwp_pos x < contentSize node) l
    ∧ NoDup (nwp_pos <$> l).
Proof.
  intros Hwf.
  destruct (allDescendants_ordered node Hwf 0) as [Hbound Hsorted].
  assert (∀ l, l `sublist_of` allDescendants node 0 →
               StronglySorted before_in_document l
               ∧ Forall (λ x, 0 ≤ nwp_pos x < contentSize node) l
               ∧ NoDup (nwp_pos <$> l)) as Hsub.
  { intros l Hl.
    assert (StronglySorted before_in_document l) as Hs.
    { clear Hbound. induction Hl as [|x l1 l2 Hl IH | x l1 l2 Hl IH]; [constructor | |].
      - apply StronglySorted_cons in Hsorted as [Hx Hrest].
        apply StronglySorted_cons. split; [| by apply IH].
        rewrite Forall_forall in Hx |- *. intros y Hy. apply Hx.
        by eapply elem_of_sublist.
      - apply StronglySorted_cons in Hsorted as [_ Hrest]. by apply IH. }
    split; [done |]. split.
    - rewrite Forall_forall in Hbound |- *. intros x Hx. apply Hbound.
      by eapply elem_of_sublist.
    - clear Hl. induction Hs as [|x l' Hs IH Hx]; simpl; constructor; [| done].
      rewrite list_elem_of_fmap. intros (y & Hxy & Hy).
      rewrite Forall_forall in Hx. specialize (Hx _ Hy).
      unfold before_in_document in Hx. lia. }
  destruct (truthy descend) eqn:Hd.
  - destruct descend as [| | []]; try done.
    exists (allDescendants node 0). split.
    + unfold flatten, descendants. by rewrite nodesBetween_deep.
    + by apply Hsub.
  - exists (childrenWithPos (content node) 0). split; [by apply flatten_falsy |].
    apply Hsub. destruct node as [t s | t | t cs]; simpl content; try done.
    rewrite allDescendants_branch. apply childrenWithPos_sublist.
Qed.

(** Inline and block nodes.  In a schema where the block types are the types
    that are not inline, [findInlineNodes] and [findBlockNodes] split the
    entries of [flatten] between them: every entry is in exactly one of the
    two results, and the two lengths add up to the length of [flatten]. *)
Lemma inline_block_split {kinds : NodeKinds} node descend :
  (∀ ty, blockType ty = negb (inlineType ty)) →
  ∃ all inline block : list NodeWithPos,
    flatten (Some node) descend = Return all
    ∧ findInlineNodes (Some node) descend = Return inline
    ∧ findBlockNodes (Some node) descend = Return block
    ∧ (length inline + length block = length all)%nat
    ∧ ∀ x, x ∈ all → (x ∈ inline ∧ x ∉ block) ∨ (x ∈ block ∧ x ∉ inline).
Proof.
  intros Hkinds. unfold findInlineNodes, findBlockNodes, findChildren, flatten.
  eexists _, _, _. split; [reflexivity |]. split; [reflexivity |].
  split; [reflexivity |].
  generalize (descendants (flatten_callback descend) node []). intros l.
  assert (∀ x, isBlock (nwp_node x) = negb (isInline (nwp_node x))) as Hneg.
  { intros x. apply Hkinds. }
  split.
  - induction l as [|x l IH]; [done |].
    rewrite !filter_cons. specialize (Hneg x).
    destruct (isInline (nwp_node x)); rewrite Hneg; simpl;
      repeat case_decide; try done; simpl; lia.
  - intros x Hx. rewrite !list_elem_of_filter. specialize (Hneg x).
    destruct (isInline (nwp_node x)); rewrite Hneg; simpl; [left | right];
      split; try done; by intros [? _].
Qed.

(** ** [findChildrenByAttr] and a missing predicate *)

Lemma filterOutcome_pure {A} (p : A → bool) (l : list A) :
  filterOutcome (λ x, Yields (p x)) l = Yields (filter (λ x, p x = true) l).
Proof.
  induction l as [|x r IH]; simpl; [done |].
  rewrite IH, filter_cons. by destruct (p x).
Qed.

(** One turn of the loop of the walk, for the callback of [flatten]. *)
Lemma fragmentNodesBetween_flatten_cons descend c r nodeStart pos acc :
  fragmentNodesBetween (flatten_callback descend) (c :: r) nodeStart pos acc
  = fragmentNodesBetween (flatten_callback descend) r nodeStart (pos + nodeSize c)
      (if truthy descend && negb (contentSize c =? 0)
       then nodesBetween (flatten_callback descend) c (nodeStart + pos + 1)
              (acc ++ [mkNodeWithPos c (nodeStart + pos)])
       else acc ++ [mkNodeWithPos c (nodeStart + pos)]).
Proof. simpl. unfold flatten_callback at 1. by destruct (truthy descend). Qed.

Lemma nodesBetween_flatten_grows descend n :
  ∀ start acc,
    (length acc ≤ length (nodesBetween (flatten_callback descend) n start acc))%nat.
Proof.
  induction n as [t s | t | t cs IH] using ProsemirrorNode_forall_ind;
    intros start acc; [done | done |].
  rewrite nodesBetween_branch. generalize 0 as pos. revert acc.
  induction IH as [|c r Hc _ IHr]; intros acc pos; [done |].
  rewrite fragmentNodesBetween_flatten_cons.
  etrans; [| apply IHr].
  destruct (truthy descend && negb (contentSize c =? 0)).
  - etrans; [| apply Hc]. rewrite length_app. simpl. lia.
  - rewrite length_app. simpl. lia.
Qed.

Lemma fragmentNodesBetween_flatten_grows descend l nodeStart pos acc :
  (length acc + length l
   ≤ length (fragmentNodesBetween (flatten_callback descend) l nodeStart pos acc))%nat.
Proof.
  revert pos acc. induction l as [|c r IH]; intros pos acc; [simpl; lia |].
  rewrite fragmentNodesBetween_flatten_cons.
  etrans; [| apply IH]. simpl.
  destruct (truthy descend && negb (contentSize c =? 0)).
  - pose proof (nodesBetween_flatten_grows descend c (nodeStart + pos + 1)
                  (acc ++ [mkNodeWithPos c (nodeStart + pos)])) as Hc.
    rewrite length_app in Hc. simpl in Hc. lia.
  - rewrite length_app. simpl. lia.
Qed.

(** [flatten] returns the empty list exactly for a node without children. *)
Lemma flatten_empty_iff node descend l :
  flatten (Some node) descend = Return l →
  l = [] ↔ content node = [].
Proof.
  intros [= <-]. unfold descendants.
  destruct node as [t s | t | t cs]; [done | done |].
  rewrite nodesBetween_branch. simpl content.
  destruct cs as [|c r]; [done |]. split; [| done].
  intros Hnil. exfalso.
  pose proof (fragmentNodesBetween_flatten_grows descend (c :: r) 0 0 []) as Hlen.
  rewrite Hnil in Hlen. simpl in Hlen. lia.
Qed.

(** [findChildrenByAttr] does not notice a missing predicate the way
    [findChildren] does.  Without a node it throws the invalid-node error.
    With a node and no predicate it never throws the invalid-predicate
    error: it returns the empty list when the node has no children, and
    ends in the [TypeError] of the call of the missing predicate as soon as
    there is an entry to test.  With both present it returns what
    [findChildren] returns. *)
Lemma findChildrenByAttr_missing_predicate node descend :
  (∀ predicate,
     findChildrenByAttr None predicate descend
     = Raises (ThrownInvalid InvalidNodeParameter))
  ∧ (content node = [] → findChildrenByAttr (Some node) None descend = Yields [])
  ∧ (content node ≠ [] →
     findChildrenByAttr (Some node) None descend = Raises ThrownTypeError)
  ∧ (∀ predicate : Predicate,
       findChildrenByAttr (Some node) (Some predicate) descend
       = outcomeOf (findChildren (Some node) (Some predicate) descend)).
Proof.
  split; [done |].
  unfold findChildrenByAttr, findChildrenOutcome.
  destruct (flatten (Some node) descend) as [e | l] eqn:Hflat; [done |].
  pose proof (flatten_empty_iff _ _ _ Hflat) as Hempty.
  split_and!.
  - intros Hc. apply Hempty in Hc as ->. done.
  - intros Hc. destruct l as [|x r]; [by destruct Hc; apply Hempty | done].
  - intros predicate. unfold findChildren. rewrite Hflat. simpl.
    rewrite (filterOutcome_pure
               (λ child, negb (negb (predicate (nwp_node child)))) l).
    f_equal. clear Hflat Hempty.
    induction l as [|x r IH]; [done |].
    rewrite !filter_cons, negb_involutive, IH. done.
Qed.

(** ** Offsets are relative to the node flattened *)

Lemma allDescendants_shift n :
  ∀ start, allDescendants n start = shiftPos start <$> allDescendants n 0.
Proof.
  induction n as [t s | t | t cs IH] using ProsemirrorNode_forall_ind;
    intros start; [done | done |].
  rewrite !allDescendants_branch.
  enough (∀ pos, fragmentDescendants cs (pos + start)
                 = shiftPos start <$> fragmentDescendants cs pos) as Hfrag.
  { rewrite <- Hfrag. by rewrite Z.add_0_l. }
  induction IH as [|c r Hc _ IHr]; intros pos; simpl; [done |].
  rewrite fmap_app. unfold shiftPos at 1. simpl. f_equal.
  f_equal.
  - rewrite (Hc (pos + start + 1)), (Hc (pos + 1)), <- list_fmap_compose.
    apply list_fmap_ext. intros _ x _. unfold shiftPos. simpl. f_equal. lia.
  - rewrite <- IHr. f_equal. lia.
Qed.

Lemma fragmentDescendants_child l (i : nat) child pos :
  l !! i = Some child →
  mkNodeWithPos child (pos + fragmentSize (take i l)) ∈ fragmentDescendants l pos
  ∧ allDescendants child (pos + fragmentSize (take i l) + 1)
      `sublist_of` fragmentDescendants l pos.
Proof.
  revert i pos. induction l as [|c r IH]; intros i pos; [done |].
  destruct i as [|i]; simpl.
  - intros [= ->]. rewrite Z.add_0_r. split; [apply list_elem_of_here |].
    apply sublist_cons, sublist_inserts_r. done.
  - intros Hi. destruct (IH i (pos + nodeSize c) Hi) as [Hin Hsub].
    replace (pos + (nodeSize c + fragmentSize (take i r)))
      with (pos + nodeSize c + fragmentSize (take i r)) by lia.
    split.
    + apply list_elem_of_further, elem_of_app. by right.
    + by apply sublist_cons, sublist_inserts_l.
Qed.

(** Offsets are counted from the start of the content of the node that is
    flattened.  On a document without empty text nodes, for the child [c]
    at index [i] of [node], at offset [p]: the search with descent lists [c]
    at [p], and what it lists when started from [c] itself is found in the
    list for [node], in the same order, every offset moved by [p + 1]. *)
Lemma flatten_child_in_parent node (i : nat) child :
  wellFormed node →
  content node !! i = Some child →
  let p := fragmentSize (take i (content node)) in
  ∃ inner outer : list NodeWithPos,
    flatten (Some child) (given true) = Return inner
    ∧ flatten (Some node) (given true) = Return outer
    ∧ mkNodeWithPos child p ∈ outer
    ∧ (shiftPos (p + 1) <$> inner) `sublist_of` outer.
Proof.
  intros Hwf Hi p.
  assert (wellFormed child) as Hwfc.
  { destruct node as [t s | t | t cs]; [done | done |].
    apply wellFormed_branch in Hwf. rewrite Forall_forall in Hwf.
    apply Hwf. by eapply list_elem_of_lookup_2. }
  exists (allDescendants child 0), (allDescendants node 0).
  split; [unfold flatten, descendants; by rewrite nodesBetween_deep |].
  split; [unfold flatten, descendants; by rewrite nodesBetween_deep |].
  destruct node as [t s | t | t cs]; [done | done |].
  rewrite allDescendants_branch. simpl content in *.
  destruct (fragmentDescendants_child cs i child 0 Hi) as [Hin Hsub].
  rewrite Z.add_0_l in Hin, Hsub. fold p in Hin, Hsub.
  split; [done |]. by rewrite <- allDescendants_shift.
Qed.

(** ** Ancestor searches *)

(** [hasParentNode] answers whether some ancestor of the anchor, at a depth
    from 1 to the depth of the anchor, satisfies the predicate; the root, at
    depth 0, does not count. *)
Lemma hasParentNode_iff (predicate : Predicate) (selection : Selection) :
  hasParentNode predicate selection = true
  ↔ ∃ d : nat,
      (1 ≤ d ≤ rp_depth (sel_from selection))%nat
      ∧ predicate (rp_node (sel_from selection) d) = true.
Proof.
  unfold hasParentNode, findParentNode, findParentNodeClosestToPos.
  pose proof (findParentNodeClosestToPos_loop_spec (sel_from selection) predicate
                (rp_depth (sel_from selection))) as Hspec.
  destruct (findParentNodeClosestToPos_loop _ _ _) as [r |].
  - destruct Hspec as (Hd & Hr & _). split; [| done].
    intros _. by exists (cn_depth r).
  - split; [done |]. intros (d & Hd & Hp). by rewrite Hspec in Hp.
Qed.

(** A weaker predicate finds an ancestor at least as deep: when every
    ancestor that satisfies [P] satisfies [Q], and the search for [P] finds
    an ancestor, the search for [Q] finds one too, at the same depth or
    deeper. *)
Lemma findParentNodeClosestToPos_weaker (P Q : Predicate) (rpos : ResolvedPos)
    (r : ContentNodeWithPos) :
  (∀ d : nat, (1 ≤ d ≤ rp_depth rpos)%nat →
              P (rp_node rpos d) = true → Q (rp_node rpos d) = true) →
  findParentNodeClosestToPos rpos P = Some r →
  ∃ r', findParentNodeClosestToPos rpos Q = Some r'
        ∧ (cn_depth r ≤ cn_depth r')%nat.
Proof.
  unfold findParentNodeClosestToPos. intros HPQ HP.
  pose proof (findParentNodeClosestToPos_loop_spec rpos P (rp_depth rpos)) as HsP.
  pose proof (findParentNodeClosestToPos_loop_spec rpos Q (rp_depth rpos)) as HsQ.
  rewrite HP in HsP. destruct HsP as (Hd & Hr & _).
  destruct (findParentNodeClosestToPos_loop rpos Q (rp_depth rpos)) as [r' |].
  - exists r'. split; [done |].
    destruct HsQ as (Hd' & _ & Hdeeper & _).
    destruct (decide (cn_depth r ≤ cn_depth r')%nat) as [| Hlt]; [done |].
    exfalso. specialize (HPQ (cn_depth r) Hd Hr).
    rewrite Hdeeper in HPQ; [done | lia].
  - specialize (HPQ (cn_depth r) Hd Hr). by rewrite HsQ in HPQ.
Qed.

(** ** View references of ancestors *)

Lemma findDomRefAtPos_never_text position domAtPos r :
  findDomRefAtPos position domAtPos = Some r → nodeType r = ELEMENT_NODE.
Proof.
  unfold findDomRefAtPos.
  destruct (Z.eqb_spec (nodeType (dom_node (domAtPos position))) TEXT_NODE)
    as [Htext | Hnot].
  - apply parentNode_element.
  - destruct (childNode _ _) as [child |].
    + destruct (Z.eqb_spec (nodeType child) TEXT_NODE) as [? | Hc]; intros [= <-].
      * by destruct (nodeType_cases (dom_node (domAtPos position))).
      * by destruct (nodeType_cases child).
    + intros [= <-]. by destruct (nodeType_cases (dom_node (domAtPos position))).
Qed.

(** [findParentDomRef] asks the view only when an ancestor matches, and then
    for the offset just before the innermost matching ancestor: it returns
    nothing when [hasParentNode] is false, and a node it returns is an
    element, never a text node, and is what [findDomRefAtPos] gives at that
    offset.  [findParentDomRefOfType] is the same search for the ancestors of
    the given types. *)
Lemma findParentDomRef_element (predicate : Predicate) (domAtPos : DomAtPos)
    (selection : Selection) :
  (hasParentNode predicate selection = false →
   findParentDomRef predicate domAtPos selection = None)
  ∧ (∀ r, findParentDomRef predicate domAtPos selection = Some r →
          nodeType r = ELEMENT_NODE
          ∧ ∃ d : nat,
              (1 ≤ d ≤ rp_depth (sel_from selection))%nat
              ∧ predicate (rp_node (sel_from selection) d) = true
              ∧ (∀ j, (d < j ≤ rp_depth (sel_from selection))%nat →
                      predicate (rp_node (sel_from selection) j) = false)
              ∧ findDomRefAtPos (rp_before (sel_from selection) d) domAtPos = Some r)
  ∧ (∀ nodeType,
       findParentDomRefOfType nodeType domAtPos selection
       = findParentDomRef (equalNodeType nodeType) domAtPos selection).
Proof.
  unfold findParentDomRef, hasParentNode, findParentNode, findParentNodeClosestToPos.
  pose proof (findParentNodeClosestToPos_loop_spec (sel_from selection) predicate
                (rp_depth (sel_from selection))) as Hspec.
  destruct (findParentNodeClosestToPos_loop _ _ _) as [parent |].
  - destruct Hspec as (Hd & Hp & Hdeeper & Hfields).
    split_and!; [done | | done].
    intros r Hr. split; [by eapply findDomRefAtPos_never_text |].
    exists (cn_depth parent). split_and!; try done; try lia.
    assert (cn_pos parent = rp_before (sel_from selection) (cn_depth parent))
      as <- by (rewrite Hfields; reflexivity).
    exact Hr.
  - by split_and!.
Qed.

(** ** The transaction helpers *)

(** [cloneTr] makes a copy and touches nothing else: the reference it
    returns is new, the new object has the document, the selection and the
    steps of the original and the current time as its time stamp, every
    object of the store is as it was, and the store has one object more. *)
Lemma cloneTr_fresh_copy (w : World) (tr : nat) (t : Transaction) :
  heap w !! tr = Some t →
  ∃ r w',
    cloneTr tr w = Some (r, w')
    ∧ r ≠ tr
    ∧ heap w !! r = None
    ∧ heap w' !! r
      = Some {| doc := doc t; curSelection := curSelection t;
                steps := steps t; time := now w |}
    ∧ (∀ l, l ≠ r → heap w' !! l = heap w !! l)
    ∧ size (heap w') = S (size (heap w)).
Proof.
  intros Ht. unfold cloneTr. rewrite Ht.
  pose proof (is_fresh (dom (heap w))) as Hfresh.
  set (r := fresh (dom (heap w))) in *.
  assert (heap w !! r = None) as Hnone by (by apply not_elem_of_dom).
  eexists _, _. split; [reflexivity |]. simpl. split_and!.
  - intros ->. by rewrite Ht in Hnone.
  - done.
  - apply lookup_insert_eq.
  - intros l Hl. by rewrite lookup_insert_ne.
  - by apply map_size_insert_None.
Qed.

Section MoreTransformFacts.
Context {editor : Editor}.

(** [removeParentNodeOfType] returns [tr] itself, with the store as it was,
    when no ancestor of the types is found, and only then.  When one is
    found it goes on as [removeNodeAtPos] does at the offset [parent.pos]
    just before that ancestor.  The framework stops it when that offset
    resolves to depth 0, which is so when the ancestor is a child of the
    document, or is not an offset of the document.  Otherwise the deletion
    recorded is the one of the span, from [before] to [after], of the node
    at the depth of the position resolved at [parent.pos], and the reference
    returned is new. *)
Lemma removeParentNodeOfType_acts_iff (nodeType : NodeTypes) (tr : nat)
    (t : Transaction) (w : World) :
  heap w !! tr = Some t →
  (ancestors_findParentNodeOfType nodeType (curSelection t) = None →
   removeParentNodeOfType nodeType tr w = Some (Fine tr, w))
  ∧ (∀ parent,
       ancestors_findParentNodeOfType nodeType (curSelection t) = Some parent →
       let rpos := resolve (doc t) (cn_pos parent) in
       (inRange (doc t) (cn_pos parent) = false ∨ rp_depth rpos = 0%nat →
        removeParentNodeOfType nodeType tr w = Some (RangeError, w))
       ∧ (inRange (doc t) (cn_pos parent) = true →
          rp_depth rpos ≠ 0%nat →
          commitsChecked w tr t
            (DeleteStep (rp_before rpos (rp_depth rpos))
               (rp_after rpos (rp_depth rpos)))
            (removeParentNodeOfType nodeType tr w)))
  ∧ (∀ w', removeParentNodeOfType nodeType tr w = Some (Fine tr, w') →
           ancestors_findParentNodeOfType nodeType (curSelection t) = None).
Proof.
  intros Ht.
  assert (Hcode : removeParentNodeOfType nodeType tr w
    = match ancestors_findParentNodeOfType nodeType (curSelection t) with
      | Some parent => removeNodeAtPos (cn_pos parent) None tr w
      | None => Some (Fine tr, w)
      end).
  { unfold removeParentNodeOfType. rewrite (bind_tr_read _ _ _ _ Ht).
    by destruct (ancestors_findParentNodeOfType _ _). }
  rewrite Hcode. split_and!.
  - by intros ->.
  - intros parent -> rpos. split.
    + by apply removeNodeAtPos_refused.
    + by apply removeNodeAtPos_deletes.
  - intros w'.
    destruct (ancestors_findParentNodeOfType _ _) as [parent |]; [| done].
    intros Hsame. exfalso.
    destruct (inRange (doc t) (cn_pos parent)) eqn:Hin;
      [destruct (decide (rp_depth (resolve (doc t) (cn_pos parent)) = 0%nat))
         as [Hd | Hd] |].
    + rewrite (removeNodeAtPos_refused _ None _ _ _ Ht (or_intror Hd)) in Hsame.
      discriminate.
    + destruct (removeNodeAtPos_deletes _ None _ _ _ Ht Hin Hd)
        as (r & w1 & Hout & Hne & _).
      rewrite Hout in Hsame. by injection Hsame as -> _.
    + rewrite (removeNodeAtPos_refused _ None _ _ _ Ht (or_introl Hin)) in Hsame.
      discriminate.
Qed.




End MoreTransformFacts.

(** ** The further properties on the samples *)

(** The paragraphs of [doc(paragraph("ab"), blockquote(paragraph("ab")))]:
    the one at offset 0 is found without descent, and with descent that one
    and then the one at offset 5. *)
Lemma findChildren_shallow_in_deep_witness :
  wellFormed doc_mixed
  ∧ findChildren (Some doc_mixed)
      (Some (λ n, bool_decide (type n = "paragraph"))) (given false)
    = Return [mkNodeWithPos paragraph_ab 0]
  ∧ findChildren (Some doc_mixed)
      (Some (λ n, bool_decide (type n = "paragraph"))) (given true)
    = Return [mkNodeWithPos paragraph_ab 0; mkNodeWithPos paragraph_ab 5]
  ∧ ∃ shallow deep : list NodeWithPos,
      findChildren (Some doc_mixed)
        (Some (λ n, bool_decide (type n = "paragraph"))) (given false)
      = Return shallow
      ∧ findChildren (Some doc_mixed)
          (Some (λ n, bool_decide (type n = "paragraph"))) (given true)
        = Return deep
      ∧ shallow `sublist_of` deep.
Proof.
  assert (wellFormed doc_mixed) as Hwf by (simpl; by split_and!).
  split; [exact Hwf |]. split; [reflexivity |]. split; [reflexivity |].
  exact (findChildren_shallow_in_deep doc_mixed
           (λ n, bool_decide (type n = "paragraph")) Hwf).
Defined.

(** The four descendants of the sample table, at offsets 0, 1, 2 and 3. *)
Lemma flatten_document_order_witness :
  wellFormed table_1x1
  ∧ ∃ l : list NodeWithPos,
      flatten (Some table_1x1) (given true) = Return l
      ∧ StronglySorted before_in_document l
      ∧ Forall (λ x, 0 ≤ nwp_pos x < contentSize table_1x1) l
      ∧ NoDup (nwp_pos <$> l).
Proof.
  assert (wellFormed table_1x1) as Hwf by (simpl; by split_and!).
  split; [exact Hwf |].
  exact (flatten_document_order table_1x1 (given true) Hwf).
Defined.

(** Inline and block nodes of [doc(blockquote(paragraph("ab")))]. *)
Lemma inline_block_split_witness :
  (∀ ty, blockType (NodeKinds := sample_kinds) ty
         = negb (inlineType (NodeKinds := sample_kinds) ty))
  ∧ ∃ all inline block : list NodeWithPos,
      flatten (Some doc_bq) (given true) = Return all
      ∧ findInlineNodes (kinds := sample_kinds) (Some doc_bq) (given true)
        = Return inline
      ∧ findBlockNodes (kinds := sample_kinds) (Some doc_bq) (given true)
        = Return block
      ∧ (length inline + length block = length all)%nat
      ∧ ∀ x, x ∈ all → (x ∈ inline ∧ x ∉ block) ∨ (x ∈ block ∧ x ∉ inline).
Proof.
  assert (∀ ty, blockType (NodeKinds := sample_kinds) ty
                = negb (inlineType (NodeKinds := sample_kinds) ty)) as Hkinds
    by (intros ty; reflexivity).
  split; [exact Hkinds |].
  exact (inline_block_split (kinds := sample_kinds) doc_bq (given true) Hkinds).
Defined.

(** The blockquote of the sample document and what lies inside it. *)
Lemma flatten_child_in_parent_witness :
  wellFormed doc_bq
  ∧ content doc_bq !! 0%nat = Some blockquote_ab
  ∧ ∃ inner outer : list NodeWithPos,
      flatten (Some blockquote_ab) (given true) = Return inner
      ∧ flatten (Some doc_bq) (given true) = Return outer
      ∧ mkNodeWithPos blockquote_ab 0 ∈ outer
      ∧ (shiftPos 1 <$> inner) `sublist_of` outer.
Proof.
  assert (wellFormed doc_bq) as Hwf by (simpl; by split_and!).
  split; [exact Hwf |]. split; [reflexivity |].
  exact (flatten_child_in_parent doc_bq 0 blockquote_ab Hwf eq_refl).
Defined.

(** From inside the paragraph of the sample document: the search for a
    paragraph stops at depth 2, and so does the search for a paragraph or a
    blockquote. *)
Lemma findParentNodeClosestToPos_weaker_witness :
  (∀ d : nat, (1 ≤ d ≤ rp_depth doc_bq_at3)%nat →
     bool_decide (type (rp_node doc_bq_at3 d) = "paragraph") = true →
     bool_decide (type (rp_node doc_bq_at3 d) = "paragraph")
     || bool_decide (type (rp_node doc_bq_at3 d) = "blockquote") = true)
  ∧ findParentNodeClosestToPos doc_bq_at3
      (λ n, bool_decide (type n = "paragraph"))
    = Some {| cn_pos := 1; cn_start := 2; cn_depth := 2; cn_node := paragraph_ab |}
  ∧ ∃ r',
      findParentNodeClosestToPos doc_bq_at3
        (λ n, bool_decide (type n = "paragraph")
              || bool_decide (type n = "blockquote"))
      = Some r'
      ∧ (2 ≤ cn_depth r')%nat.
Proof.
  assert (∀ d : nat, (1 ≤ d ≤ rp_depth doc_bq_at3)%nat →
     bool_decide (type (rp_node doc_bq_at3 d) = "paragraph") = true →
     bool_decide (type (rp_node doc_bq_at3 d) = "paragraph")
     || bool_decide (type (rp_node doc_bq_at3 d) = "blockquote") = true) as Hweak
    by (intros d _ ->; reflexivity).
  split; [exact Hweak |]. split; [reflexivity |].
  exact (findParentNodeClosestToPos_weaker
           (λ n, bool_decide (type n = "paragraph"))
           (λ n, bool_decide (type n = "paragraph")
                 || bool_decide (type n = "blockquote"))
           doc_bq_at3
           {| cn_pos := 1; cn_start := 2; cn_depth := 2; cn_node := paragraph_ab |}
           Hweak eq_refl).
Defined.

(** A clone of the sample transaction. *)
Lemma cloneTr_fresh_copy_witness :
  heap world_caret !! 7%nat = Some tr_caret
  ∧ ∃ r w',
      cloneTr 7%nat world_caret = Some (r, w')
      ∧ r ≠ 7%nat
      ∧ heap world_caret !! r = None
      ∧ heap w' !! r
        = Some {| doc := doc_bq; curSelection := curSelection tr_caret;
                  steps := []; time := 1000 |}
      ∧ (∀ l, l ≠ r → heap w' !! l = heap world_caret !! l)
      ∧ size (heap w') = S (size (heap world_caret)).
Proof.
  split; [reflexivity |].
  exact (cloneTr_fresh_copy world_caret 7%nat tr_caret eq_refl).
Defined.

(** [removeNodeAtPos] at offset 3 of the sample document deletes the
    paragraph, from 1 to 5; at offset 0, before the blockquote, the
    framework stops it. *)
Lemma removeNodeAtPos_commits_witness :
  heap world_caret !! 7%nat = Some tr_caret
  ∧ commitsChecked (editor := sample_editor) world_caret 7%nat tr_caret
      (DeleteStep 1 5)
      (removeNodeAtPos (editor := sample_editor) 3 None 7%nat world_caret)
  ∧ removeNodeAtPos (editor := sample_editor) 0 None 7%nat world_caret
    = Some (RangeError, world_caret).
Proof.
  split; [reflexivity |]. split.
  - apply (proj2 (removeNodeAtPos_commits (editor := sample_editor) 3 None 7%nat
                    tr_caret world_caret eq_refl));
      [reflexivity | discriminate].
  - apply (proj1 (removeNodeAtPos_commits (editor := sample_editor) 0 None 7%nat
                    tr_caret world_caret eq_refl)).
    right. reflexivity.
Defined.

(** With the caret inside the paragraph, [removeParentNodeOfType] for
    paragraphs resolves the offset 1 just before the paragraph, a position
    of depth 1 inside the blockquote, and deletes from 0 to 6.  For
    blockquotes it resolves the offset 0 just before the blockquote, a
    position of depth 0, and the framework stops it.  For tables it finds
    nothing and returns the transaction. *)
Lemma removeParentNodeOfType_acts_iff_witness :
  heap world_caret !! 7%nat = Some tr_caret
  ∧ commitsChecked (editor := sample_editor) world_caret 7%nat tr_caret
      (DeleteStep 0 6)
      (removeParentNodeOfType (editor := sample_editor) (OneType "paragraph")
         7%nat world_caret)
  ∧ removeParentNodeOfType (editor := sample_editor) (OneType "blockquote")
      7%nat world_caret
    = Some (RangeError, world_caret)
  ∧ removeParentNodeOfType (editor := sample_editor) (OneType "table")
      7%nat world_caret
    = Some (Fine 7%nat, world_caret).
Proof.
  split; [reflexivity |]. split_and!.
  - apply (proj2 (proj1 (proj2 (removeParentNodeOfType_acts_iff
                                  (editor := sample_editor) (OneType "paragraph")
                                  7%nat tr_caret world_caret eq_refl))
                    {| cn_pos := 1; cn_start := 2; cn_depth := 2;
                       cn_node := paragraph_ab |} eq_refl));
      [reflexivity | discriminate].
  - apply (proj1 (proj1 (proj2 (removeParentNodeOfType_acts_iff
                                  (editor := sample_editor) (OneType "blockquote")
                                  7%nat tr_caret world_caret eq_refl))
                    {| cn_pos := 0; cn_start := 1; cn_depth := 1;
                       cn_node := blockquote_ab |} eq_refl)).
    right. reflexivity.
  - apply (proj1 (removeParentNodeOfType_acts_iff
                    (editor := sample_editor) (OneType "table")
                    7%nat tr_caret world_caret eq_refl)).
    reflexivity.
Defined.




(** The row of the sample table is found by [contains], and by the search
    with descent. *)
Lemma contains_true_found_deep_witness :
  wellFormed table_1x1
  ∧ contains (Some table_1x1) "table_row" = Return true
  ∧ ∃ x rest,
      findChildrenByType (Some table_1x1) "table_row" (given true)
      = Return (x :: rest).
Proof.
  assert (wellFormed table_1x1) as Hwf by (simpl; by split_and!).
  split; [exact Hwf |]. split; [reflexivity |].
  exact (contains_true_found_deep table_1x1 "table_row" Hwf eq_refl).
Defined.

(** [flatten] of the sample document without a [descend] argument. *)
Lemma flatten_absent_descend_witness :
  (undefined = undefined ∨ undefined = null)
  ∧ flatten (Some doc_bq) undefined = flatten (Some doc_bq) (given false).
Proof.
  assert (undefined = undefined ∨ undefined = null) as Habsent by (left; reflexivity).
  split; [exact Habsent |].
  exact (flatten_absent_descend doc_bq undefined Habsent).
Defined.
